(** * vault-manager: reconciliation of secrets engines, policies and audit devices

    A shallow embedding of the three object-kind packages
    [toplevel/secretsengine], [toplevel/policy] and [toplevel/audit]:
    their [entry] structs, the [vault.Item] methods, [isDefaultMount],
    [isDefaultPolicy], [asItems] and the three [Apply] functions.

    Strings are Go strings (byte sequences, compared with [==]); Go maps that
    are only stored and looked up are [gmap]s; a Go map that is ranged over is
    the list of its bindings in the order the [range] loop visits them. *)

From Stdlib Require Import String Ascii List Bool Arith Lia.
From stdpp Require Import base option list strings gmap.
Import ListNotations.
Local Open Scope string_scope.

(** ** Types of the collaborating packages *)

(** [instance.Instance]: only the [Address] field is read by the code. *)
Module instance.
Record Instance := { Address : string }.
Definition zero : Instance := {| Address := "" |}.
End instance.

(** The structs of [github.com/hashicorp/vault/api] that the code builds or
    reads, with the fields it uses. *)
Module api.
Record MountOutput := {
    mo_Type : string;
    mo_Description : string;
    mo_Options : gmap string string }.
Record MountInput := {
    mi_Type : string;
    mi_Description : string;
    mi_Options : gmap string string }.
Record MountConfigInput := { mc_Description : string }.
Record Audit := {
    au_Path : string;
    au_Type : string;
    au_Description : string;
    au_Options : gmap string string }.
Record EnableAuditOptions := {
    ea_Type : string;
    ea_Description : string;
    ea_Options : gmap string string }.
End api.

(** ** The [entry] struct of each package *)

Module secretsengine_entry.
Record entry := {
  Path : string;
  Type_ : string;
  Instance : instance.Instance;
  Description : string;
  Options : gmap string string }.
End secretsengine_entry.

Module policy_entry.
Record entry := {
  Name : string;
  Rules : string;
  Type_ : string;
  Instance : instance.Instance;
  Description : string }.
End policy_entry.

Module audit_entry.
Record entry := {
  Path : string;
  Type_ : string;
  Description : string;
  Instance : instance.Instance;
  Options : gmap string string }.
End audit_entry.

(** ** Go values behind [interface{}] *)

(** The dynamic type of a value stored in an interface. *)
Inductive gotype :=
| TNil
| TBool
| TInt
| TString
| TSecretsEngineEntry
| TPolicyEntry
| TAuditEntry
| TPointer (t : gotype).

(** A value stored in an [interface{}]: the nil interface, basic values, an
    [entry] of one of the three packages, or a pointer to such a value. *)
Inductive value :=
| VNil
| VBool (b : bool)
| VInt (n : Z)
| VString (s : string)
| VSecretsEngine (e : secretsengine_entry.entry)
| VPolicy (e : policy_entry.entry)
| VAudit (e : audit_entry.entry)
| VPointer (v : value).

Fixpoint typeOf (v : value) : gotype :=
  match v with
  | VNil => TNil
  | VBool _ => TBool
  | VInt _ => TInt
  | VString _ => TString
  | VSecretsEngine _ => TSecretsEngineEntry
  | VPolicy _ => TPolicyEntry
  | VAudit _ => TAuditEntry
  | VPointer v' => TPointer (typeOf v')
  end.

(** ** Package [vault]: the [Item] interface *)

Module vault.

(** An interface value of type [vault.Item]: the boxed value and its method
    table, each method already applied to the receiver. *)
Record Item := {
  self : value;
  Key : string;
  Equals : value -> bool;
  KeyForType : string;
  KeyForDescription : string }.

(** *** DiffItems *)

(** An insertion-ordered table from key to item: putting a key that is
    already there replaces its item in place. *)
Definition table := list (string * Item).

Fixpoint table_get (k : string) (m : table) : option Item :=
  match m with
  | [] => None
  | (k', v) :: m' => if String.eqb k k' then Some v else table_get k m'
  end.

Fixpoint table_put (k : string) (v : Item) (m : table) : table :=
  match m with
  | [] => [(k, v)]
  | (k', v') :: m' =>
      if String.eqb k k' then (k, v) :: m' else (k', v') :: table_put k v m'
  end.

Definition build_table (observed : list Item) : table :=
  fold_left (fun m o => table_put (Key o) o m) observed [].

Definition consumed (k : string) (marks : list string) : bool :=
  existsb (String.eqb k) marks.

(** The accumulator of the pass over [desired]. *)
Record diff_acc := {
  toCreate : list Item;
  toUpdate : list Item;
  marks : list string }.

Definition diff_step (m : table) (acc : diff_acc) (d : Item) : diff_acc :=
  match table_get (Key d) m with
  | None =>
      {| toCreate := (toCreate acc ++ [d])%list;
         toUpdate := toUpdate acc;
         marks := marks acc |}
  | Some o =>
      if Equals d (self o)
      then {| toCreate := toCreate acc;
              toUpdate := toUpdate acc;
              marks := Key d :: marks acc |}
      else {| toCreate := toCreate acc;
              toUpdate := (toUpdate acc ++ [d])%list;
              marks := Key d :: marks acc |}
  end.

(** Modelled from the spec: [vault.DiffItems] of [pkg/vault], which is not
    among the source files embedded here.  Section 4.2: build a table from key to
    item for [observed]; for each item of [desired], look its key up: absent,
    it is appended to the creates; present and not [Equals], the desired item
    is appended to the updates; present and equal, nothing is output.  Every
    key of the table that no desired item has matched is then appended, as
    the observed item, to the deletes.  A key found in the table is marked
    whether or not the items are equal: section 3 defines to-delete as "key
    present only in observed", and in the scenario of section 8 the unequal
    key [b] is an update only.  The result is returned in the order of the
    call sites: [toBeWritten, toBeDeleted, toBeUpdated]. *)
Definition DiffItems (desired observed : list Item)
  : list Item * list Item * list Item :=
  let m := build_table observed in
  let acc :=
    fold_left (diff_step m) desired
      {| toCreate := []; toUpdate := []; marks := [] |} in
  let toDelete :=
    map snd (List.filter (fun kv => negb (consumed (fst kv) (marks acc))) m) in
  (toCreate acc, toDelete, toUpdate acc).

End vault.

(** ** The running process: remote calls, log lines, termination *)

Definition error := string.

(** The functions of [pkg/vault] that the three packages call.  Each one is a
    call into the remote-call client or into the registry of invalid
    instances; [addr] is the address of the target instance. *)
Inductive call :=
| ListSecretsEngines (addr : string)
| EnableSecretsEngine (addr path : string) (input : api.MountInput)
| UpdateSecretsEngine (addr path : string) (config : api.MountConfigInput)
| DisableSecretsEngine (addr path : string)
| ListVaultPolicies (addr : string)
| GetVaultPolicy (addr name : string)
| PutVaultPolicy (addr name rules : string)
| DeleteVaultPolicy (addr name : string)
| ListAuditDevices (addr : string)
| EnableAuditDevice (addr path : string) (options : api.EnableAuditOptions)
| DisableAuditDevice (addr path : string)
| AddInvalid (addr : string)
| RemoveInstanceFromReconciliation.

(** What each function returns to its caller, from its use at the call sites.
    A Go map that the caller ranges over is the list of its bindings in the
    order of the visit, with the structs its pointers point to; a [(v, err)]
    result is a pair. *)
Definition response (c : call) : Type :=
  match c with
  | ListSecretsEngines _ => list (string * api.MountOutput)
  | ListVaultPolicies _ => list string
  | GetVaultPolicy _ _ => string
  | ListAuditDevices _ => (list (string * api.Audit) * option error)%type
  | EnableAuditDevice _ _ _ => option error
  | DisableAuditDevice _ _ => option error
  | _ => unit
  end.

(** The error a call handed back to its caller, if it returns one. *)
Definition returned_error (c : call) : response c -> option error :=
  match c with
  | ListAuditDevices _ => fun r => snd r
  | EnableAuditDevice _ _ _ => fun r => r
  | DisableAuditDevice _ _ => fun r => r
  | _ => fun _ => None
  end.

(** The instance a call is made against. *)
Definition target (c : call) : option string :=
  match c with
  | ListSecretsEngines a | EnableSecretsEngine a _ _
  | UpdateSecretsEngine a _ _ | DisableSecretsEngine a _
  | ListVaultPolicies a | GetVaultPolicy a _
  | PutVaultPolicy a _ _ | DeleteVaultPolicy a _
  | ListAuditDevices a | EnableAuditDevice a _ _
  | DisableAuditDevice a _ | AddInvalid a => Some a
  | RemoveInstanceFromReconciliation => None
  end.

(** The calls that change the configuration of a target instance. *)
Definition mutating (c : call) : bool :=
  match c with
  | EnableSecretsEngine _ _ _ | UpdateSecretsEngine _ _ _
  | DisableSecretsEngine _ _
  | PutVaultPolicy _ _ _ | DeleteVaultPolicy _ _
  | EnableAuditDevice _ _ _ | DisableAuditDevice _ _ => true
  | _ => false
  end.

(** The calls that read the configuration of a target instance. *)
Definition fetching (c : call) : bool :=
  match c with
  | ListSecretsEngines _ | ListVaultPolicies _ | GetVaultPolicy _ _
  | ListAuditDevices _ => true
  | _ => false
  end.

Inductive level := InfoLevel | FatalLevel.

(** What the process does, in order: a call with the error it returned, or a
    log entry of logrus with its message and fields. *)
Inductive event :=
| Called (c : call) (err : option error)
| Logged (lvl : level) (msg : string) (fields : list (string * string)).

(** Why a process stops before its function returns: [log.Fatal] exits the
    process; a type assertion [x.(T)] on a value of another type panics. *)
Inductive stop :=
| Fatal (msg : string)
| Panic.

Inductive outcome (A : Type) :=
| Returned (a : A)
| Stopped (why : stop).
Arguments Returned {A} a.
Arguments Stopped {A} why.

Section Process.
Context {W : Type}.

(** The remote side: the state [W] of everything outside the process and,
    for each call of [pkg/vault], the response and the next state.  The
    functions of [pkg/vault] are not among the source files embedded here:
    what they return is left open, and each of them returns to its caller. *)
Variable respond : forall c : call, W -> response c * W.

Record run (A : Type) := Run {
  out : outcome A;
  world : W;
  trace : list event }.
Arguments Run {A} out world trace.
Arguments out {A} r.
Arguments world {A} r.
Arguments trace {A} r.

Definition M (A : Type) : Type := W -> run A.

Definition ret {A} (a : A) : M A :=
  fun w => Run (Returned a) w [].

Definition bind {A B} (m : M A) (f : A -> M B) : M B :=
  fun w =>
    let r := m w in
    match out r with
    | Returned a =>
        let r' := f a (world r) in
        Run (out r') (world r') (trace r ++ trace r')%list
    | Stopped why => Run (Stopped why) (world r) (trace r)
    end.

(** Modelled from the spec: the functions of [pkg/vault] that [Apply] calls
    ([ListSecretsEngines], [EnableSecretsEngine], [ListVaultPolicies],
    [GetVaultPolicy], [ListAuditDevices], [AddInvalid] and the others of
    [call]), which are not among the source files embedded here.  Section 7:
    a remote-call error is recovered at the instance granularity and is never
    process-fatal.  So a call returns to its caller, with the error where the
    call site receives one, and does not exit the process. *)
Definition invoke (c : call) : M (response c) :=
  fun w =>
    let r := respond c w in
    Run (Returned (fst r)) (snd r) [Called c (returned_error c (fst r))].

Definition log_Info (msg : string) (fields : list (string * string)) : M unit :=
  fun w => Run (Returned tt) w [Logged InfoLevel msg fields].

Definition log_Fatal {A} (err : error) (msg : string) : M A :=
  fun w => Run (Stopped (Fatal msg)) w [Logged FatalLevel msg [("error", err)]].

Definition panic {A} : M A :=
  fun w => Run (Stopped Panic) w [].

(** [for _, x := range xs { body }], where [body] ends by falling through or
    by [continue]. *)
Fixpoint forM_ {A} (xs : list A) (body : A -> M unit) : M unit :=
  match xs with
  | [] => ret tt
  | x :: xs' => bind (body x) (fun _ => forM_ xs' body)
  end.

(** A [range] loop that updates a local variable of type [B]. *)
Fixpoint foldM {A B} (body : B -> A -> M B) (xs : list A) (b : B) : M B :=
  match xs with
  | [] => ret b
  | x :: xs' => bind (body b x) (foldM body xs')
  end.

End Process.

Arguments M : clear implicits.
Arguments Run {W A} out world trace.
Arguments out {W A} r.
Arguments world {W A} r.
Arguments trace {W A} r.

Declare Scope process_scope.
Delimit Scope process_scope with process.
Notation "'let*' x ':=' m 'in' k" := (bind m (fun x => k))
  (at level 10, x name, m at level 100, k at level 200) : process_scope.
Notation "m '>>' k" := (bind m (fun _ => k))
  (at level 90, right associativity) : process_scope.

(** The result of [yaml.Unmarshal] into a slice of entries. *)
Inductive decoded (A : Type) :=
| Decoded (entries : list A)
| DecodeError (err : error).
Arguments Decoded {A} entries.
Arguments DecodeError {A} err.

(** ** Package [secretsengine] *)

Module secretsengine.
Include secretsengine_entry.

Definition Key (e : entry) : string := Path e.

Definition KeyForDescription (e : entry) : string := Description e.

Definition KeyForType (e : entry) : string := Type_ e.

(** [map[string]string] to [map[string]interface{}], binding by binding. *)
Definition ambiguousOptions (e : entry) : gmap string value :=
  VString <$> Options e.

Definition isDefaultMount (path : string) : bool :=
  if String.prefix "cubbyhole/" path then true
  else if String.prefix "identity/" path then true
  else if String.prefix "secret/" path then true
  else if String.prefix "sys/" path then true
  else false.

(** The three calls of the live branch, for the entry [ent]. *)
Definition enable_call (instance : string) (ent : entry) : call :=
  EnableSecretsEngine instance (Path ent)
    {| api.mi_Type := Type_ ent;
       api.mi_Description := Description ent;
       api.mi_Options := Options ent |}.

Definition update_call (instance : string) (ent : entry) : call :=
  UpdateSecretsEngine instance (Path ent)
    {| api.mc_Description := Description ent |}.

Definition disable_call (instance : string) (ent : entry) : call :=
  DisableSecretsEngine instance (Path ent).

Section WithVault.
Context {W : Type}.
Variable respond : forall c : call, W -> response c * W.
(** [vault.EqualPathNames] and [vault.OptionsEqual] of [pkg/vault]. *)
Variable EqualPathNames : string -> string -> bool.
Variable OptionsEqual : gmap string value -> gmap string value -> bool.
(** [yaml.Unmarshal] into [[]entry]. *)
Variable Unmarshal : list Byte.byte -> decoded entry.
(** The global [instance.InstanceAddresses]. *)
Variable InstanceAddresses : list string.

Local Open Scope process_scope.

Definition Equals (e : entry) (i : value) : bool :=
  match i with
  | VSecretsEngine entry' =>
      EqualPathNames (Path e) (Path entry') &&
      String.eqb (Type_ e) (Type_ entry') &&
      String.eqb (Description e) (Description entry') &&
      OptionsEqual (ambiguousOptions e) (ambiguousOptions entry')
  | _ => false
  end.

(** An [entry] stored in a [vault.Item]. *)
Definition item (x : entry) : vault.Item :=
  {| vault.self := VSecretsEngine x;
     vault.Key := Key x;
     vault.Equals := Equals x;
     vault.KeyForType := KeyForType x;
     vault.KeyForDescription := KeyForDescription x |}.

Definition asItems (xs : list entry) : list vault.Item :=
  map item xs.

(** The type assertion [e.(entry)], which panics on another type. *)
Definition assert_entry (e : vault.Item) : M W entry :=
  match vault.self e with
  | VSecretsEngine ent => ret ent
  | _ => panic
  end.

(** [m[e.Instance.Address] = append(m[e.Instance.Address], e)] for each
    entry. *)
Definition group_by_instance (entries : list entry)
  : gmap string (list entry) :=
  fold_left
    (fun (m : gmap string (list entry)) e =>
       let a := instance.Address (Instance e) in
       <[a := (default [] (m !! a) ++ [e])%list]> m)
    entries ∅.

(** The first loop over the Vault API: one [ListSecretsEngines] per
    distinct address of the entries. *)
Definition fetch_enabled (entries : list entry)
  : M W (gmap string (list (string * api.MountOutput))) :=
  foldM
    (fun (m : gmap string (list (string * api.MountOutput))) e =>
       let a := instance.Address (Instance e) in
       match m !! a with
       | Some _ => ret m
       | None =>
           let* r := invoke respond (ListSecretsEngines a) in
           ret (<[a := r]> m)
       end)
    entries ∅.

(** The existing engines of one instance, from its enabled engines. *)
Definition existing_engines (enabledEngines : list (string * api.MountOutput))
  : list entry :=
  map
    (fun pe =>
       {| Path := fst pe;
          Type_ := api.mo_Type (snd pe);
          Instance := instance.zero;
          Description := api.mo_Description (snd pe);
          Options := api.mo_Options (snd pe) |})
    enabledEngines.

Definition dry_run (toBeWritten toBeDeleted toBeUpdated : list vault.Item)
  : M W unit :=
  forM_ toBeWritten
    (fun w =>
       let* ent := assert_entry w in
       log_Info
         "[Dry Run] [Vault Secrets engine] secrets-engine to be enabled"
         [("path", vault.Key w); ("type", Type_ ent)]) >>
  forM_ toBeUpdated
    (fun u =>
       let* ent := assert_entry u in
       log_Info
         "[Dry Run] [Vault Secrets engine] secrets-engine to be updated"
         [("path", vault.Key u); ("type", Type_ ent)]) >>
  forM_ toBeDeleted
    (fun d =>
       if negb (isDefaultMount (vault.Key d)) then
         let* ent := assert_entry d in
         log_Info
           "[Dry Run] [Vault Secrets engine] secrets-engine to be disabled"
           [("path", vault.Key d); ("type", Type_ ent)]
       else ret tt).

Definition live_run (instance : string)
    (toBeWritten toBeDeleted toBeUpdated : list vault.Item) : M W unit :=
  forM_ toBeWritten
    (fun e =>
       let* ent := assert_entry e in
       let* _ := invoke respond (enable_call instance ent) in
       ret tt) >>
  forM_ toBeUpdated
    (fun e =>
       let* ent := assert_entry e in
       let* _ := invoke respond (update_call instance ent) in
       ret tt) >>
  forM_ toBeDeleted
    (fun e =>
       let* ent := assert_entry e in
       if negb (isDefaultMount (Path ent)) then
         let* _ := invoke respond (disable_call instance ent) in
         ret tt
       else ret tt).

(** The body of the reconcile loop, for one instance. *)
Definition reconcile (dryRun : bool)
    (instancesToDesiredEngines instancesToExistingEngines
       : gmap string (list entry))
    (instance : string) : M W unit :=
  let '(toBeWritten, toBeDeleted, toBeUpdated) :=
    vault.DiffItems
      (asItems (default [] (instancesToDesiredEngines !! instance)))
      (asItems (default [] (instancesToExistingEngines !! instance))) in
  if dryRun
  then dry_run toBeWritten toBeDeleted toBeUpdated
  else live_run instance toBeWritten toBeDeleted toBeUpdated.

(** [threadPoolSize] is not used by this package. *)
Definition Apply (entriesBytes : list Byte.byte) (dryRun : bool)
    (threadPoolSize : Z) : M W unit :=
  let* entries :=
    match Unmarshal entriesBytes with
    | Decoded entries => ret entries
    | DecodeError err =>
        log_Fatal err
          "[Vault Secrets engine] failed to decode secrets engines configuration"
    end in
  let instancesToDesiredEngines := group_by_instance entries in
  let* instancesToEnabledEngines := fetch_enabled entries in
  let instancesToExistingEngines :=
    existing_engines <$> instancesToEnabledEngines in
  forM_ InstanceAddresses
    (reconcile dryRun instancesToDesiredEngines instancesToExistingEngines).

End WithVault.
End secretsengine.

(** ** Package [policy] *)

Module policy.
Include policy_entry.

Definition Key (e : entry) : string := Name e.

Definition KeyForType (e : entry) : string := Type_ e.

Definition KeyForDescription (e : entry) : string := Description e.

Definition Equals (e : entry) (i : value) : bool :=
  match i with
  | VPolicy entry' =>
      String.eqb (Name e) (Name entry') && String.eqb (Rules e) (Rules entry')
  | _ => false
  end.

Definition isDefaultPolicy (name : string) : bool :=
  String.eqb name "root" || String.eqb name "default".

Definition item (x : entry) : vault.Item :=
  {| vault.self := VPolicy x;
     vault.Key := Key x;
     vault.Equals := Equals x;
     vault.KeyForType := KeyForType x;
     vault.KeyForDescription := KeyForDescription x |}.

Definition asItems (xs : list entry) : list vault.Item :=
  map item xs.

(** The two calls of the live branch, for the entry [ent]. *)
Definition put_call (instance : string) (ent : entry) : call :=
  PutVaultPolicy instance (Name ent) (Rules ent).

Definition delete_call (instance : string) (ent : entry) : call :=
  DeleteVaultPolicy instance (Name ent).

Section WithVault.
Context {W : Type}.
Variable respond : forall c : call, W -> response c * W.
(** [yaml.Unmarshal] into [[]entry]. *)
Variable Unmarshal : list Byte.byte -> decoded entry.
(** The global [instance.InstanceAddresses]. *)
Variable InstanceAddresses : list string.
(** The order in which [range] visits the bindings of the map
    [instancesToExistingPolicyNames]; Go leaves it unspecified. *)
Variable visit : gmap string (list string) -> list (string * list string).
(** The interleaving of the units of work of one fan-out, which the Go
    scheduler picks.  The units run concurrently, no more than
    [threadPoolSize] at a time: [schedule] is the order in which their calls
    to [vault.GetVaultPolicy] are made, and [completion] the order in which
    they then take the mutex and append their entry.  Each is a permutation
    of its argument; with [threadPoolSize] 1 both are the order of the
    slice. *)
Variable schedule : list string -> list string.
Variable completion : list entry -> list entry.

Local Open Scope process_scope.

(** The type assertion [e.(entry)], which panics on another type. *)
Definition assert_entry (e : vault.Item) : M W entry :=
  match vault.self e with
  | VPolicy ent => ret ent
  | _ => panic
  end.

Definition group_by_instance (entries : list entry)
  : gmap string (list entry) :=
  fold_left
    (fun (m : gmap string (list entry)) e =>
       let a := instance.Address (Instance e) in
       <[a := (default [] (m !! a) ++ [e])%list]> m)
    entries ∅.

(** One [ListVaultPolicies] per distinct address of the entries. *)
Definition fetch_names (entries : list entry)
  : M W (gmap string (list string)) :=
  foldM
    (fun (m : gmap string (list string)) e =>
       let a := instance.Address (Instance e) in
       match m !! a with
       | Some _ => ret m
       | None =>
           let* names := invoke respond (ListVaultPolicies a) in
           ret (<[a := (default [] (m !! a) ++ names)%list]> m)
       end)
    entries ∅.

(** The fan-out over the policy names of one instance: each unit gets its
    policy and then, holding the mutex, appends an entry to the slice of the
    instance.  The calls are made in the order [schedule]; the entries are
    appended in the order [completion]. *)
Definition fetch_policies (instance : string)
    (existingPolicyNames : list string)
    (instancesToExistingPolicies : gmap string (list entry))
  : M W (gmap string (list entry)) :=
  let* fetched :=
    foldM
      (fun (got : list entry) name =>
         let* policy := invoke respond (GetVaultPolicy instance name) in
         ret (got ++
              [{| Name := name; Rules := policy; Type_ := "";
                  Instance := instance.zero; Description := "" |}])%list)
      (schedule existingPolicyNames) [] in
  ret (fold_left
         (fun (m : gmap string (list entry)) ent =>
            <[instance := (default [] (m !! instance) ++ [ent])%list]> m)
         (completion fetched) instancesToExistingPolicies).

(** The loop over [instancesToExistingPolicyNames]; a nil slice of names
    is skipped. *)
Definition fetch_existing
    (instancesToExistingPolicyNames : gmap string (list string))
  : M W (gmap string (list entry)) :=
  foldM
    (fun (m : gmap string (list entry)) (kv : string * list string) =>
       match snd kv with
       | [] => ret m
       | _ :: _ => fetch_policies (fst kv) (snd kv) m
       end)
    (visit instancesToExistingPolicyNames) ∅.

Definition dry_run (toBeWritten toBeDeleted : list vault.Item) : M W unit :=
  forM_ toBeWritten
    (fun w =>
       log_Info
         ("[Dry Run] [Vault Policy] policy to be written='" +:+
          vault.Key w +:+ "'") []) >>
  forM_ toBeDeleted
    (fun d =>
       if isDefaultPolicy (vault.Key d) then ret tt
       else
         log_Info
           ("[Dry Run] [Vault Policy] policy to be deleted='" +:+
            vault.Key d +:+ "'") []).

Definition live_run (instance : string)
    (toBeWritten toBeDeleted : list vault.Item) : M W unit :=
  forM_ toBeWritten
    (fun e =>
       let* ent := assert_entry e in
       let* _ := invoke respond (put_call instance ent) in
       ret tt) >>
  forM_ toBeDeleted
    (fun e =>
       let* ent := assert_entry e in
       if isDefaultPolicy (Name ent) then ret tt
       else
         let* _ := invoke respond (delete_call instance ent) in
         ret tt).

(** The body of the reconcile loop, for one instance.  The third result of
    [DiffItems] is discarded. *)
Definition reconcile (dryRun : bool)
    (instancesToDesiredPolicies instancesToExistingPolicies
       : gmap string (list entry))
    (instance : string) : M W unit :=
  let '(toBeWritten, toBeDeleted, _) :=
    vault.DiffItems
      (asItems (default [] (instancesToDesiredPolicies !! instance)))
      (asItems (default [] (instancesToExistingPolicies !! instance))) in
  if dryRun
  then dry_run toBeWritten toBeDeleted
  else live_run instance toBeWritten toBeDeleted.

(** [threadPoolSize] sizes the bounded wait group of [fetch_policies] and
    has no other use. *)
Definition Apply (entriesBytes : list Byte.byte) (dryRun : bool)
    (threadPoolSize : Z) : M W unit :=
  let* entries :=
    match Unmarshal entriesBytes with
    | Decoded entries => ret entries
    | DecodeError err =>
        log_Fatal err "[Vault Policy] failed to decode policies configuration"
    end in
  let instancesToDesiredPolicies := group_by_instance entries in
  let* instancesToExistingPolicyNames := fetch_names entries in
  let* instancesToExistingPolicies :=
    fetch_existing instancesToExistingPolicyNames in
  forM_ InstanceAddresses
    (reconcile dryRun instancesToDesiredPolicies instancesToExistingPolicies).

End WithVault.
End policy.

(** ** Package [audit] *)

Module audit.
Include audit_entry.

Definition Key (e : entry) : string := Path e.

Definition KeyForType (e : entry) : string := Type_ e.

Definition KeyForDescription (e : entry) : string := Description e.

Definition ambiguousOptions (e : entry) : gmap string value :=
  VString <$> Options e.

(** The two calls of the live branch, for the entry [ent]. *)
Definition enable_call (instance : string) (ent : entry) : call :=
  EnableAuditDevice instance (Path ent)
    {| api.ea_Type := Type_ ent;
       api.ea_Description := Description ent;
       api.ea_Options := Options ent |}.

Definition disable_call (instance : string) (ent : entry) : call :=
  DisableAuditDevice instance (Path ent).

Section WithVault.
Context {W : Type}.
Variable respond : forall c : call, W -> response c * W.
(** [vault.EqualPathNames] and [vault.OptionsEqual] of [pkg/vault]. *)
Variable EqualPathNames : string -> string -> bool.
Variable OptionsEqual : gmap string value -> gmap string value -> bool.
(** [yaml.Unmarshal] into [[]entry]. *)
Variable Unmarshal : list Byte.byte -> decoded entry.
(** The keys of the global [vault.InstanceAddresses], in the order in
    which [range] visits them. *)
Variable InstanceAddresses : list string.

Local Open Scope process_scope.

Definition Equals (e : entry) (i : value) : bool :=
  match i with
  | VAudit entry' =>
      EqualPathNames (Path e) (Path entry') &&
      String.eqb (Type_ e) (Type_ entry') &&
      String.eqb (Description e) (Description entry') &&
      OptionsEqual (ambiguousOptions e) (ambiguousOptions entry')
  | _ => false
  end.

Definition item (x : entry) : vault.Item :=
  {| vault.self := VAudit x;
     vault.Key := Key x;
     vault.Equals := Equals x;
     vault.KeyForType := KeyForType x;
     vault.KeyForDescription := KeyForDescription x |}.

Definition asItems (xs : list entry) : list vault.Item :=
  map item xs.

(** The type assertion [e.(entry)], which panics on another type. *)
Definition assert_entry (e : vault.Item) : M W entry :=
  match vault.self e with
  | VAudit ent => ret ent
  | _ => panic
  end.

Definition group_by_instance (entries : list entry)
  : gmap string (list entry) :=
  fold_left
    (fun (m : gmap string (list entry)) e =>
       let a := instance.Address (Instance e) in
       <[a := (default [] (m !! a) ++ [e])%list]> m)
    entries ∅.

(** The existing audit devices of one instance, from the raw result. *)
Definition existing_audits (enabledAudits : list (string * api.Audit))
  : list entry :=
  map
    (fun ka =>
       {| Path := api.au_Path (snd ka);
          Type_ := api.au_Type (snd ka);
          Description := api.au_Description (snd ka);
          Instance := instance.zero;
          Options := api.au_Options (snd ka) |})
    enabledAudits.

Definition dry_run (instance : string)
    (toBeWritten toBeDeleted : list vault.Item) : M W unit :=
  forM_ toBeWritten
    (fun w =>
       log_Info "[Dry Run] [Vault Audit] audit device to be enabled"
         [("path", vault.Key w); ("instance", instance)]) >>
  forM_ toBeDeleted
    (fun d =>
       log_Info "[Dry Run] [Vault Audit] audit device to be disabled"
         [("path", vault.Key d); ("instance", instance)]).

Definition live_run (instance : string)
    (toBeWritten toBeDeleted : list vault.Item) : M W unit :=
  forM_ toBeWritten
    (fun e =>
       let* ent := assert_entry e in
       let* err := invoke respond (enable_call instance ent) in
       match err with
       | Some err' =>
           log_Info "[Vault Identity] failed to enable audit device"
             [("error", err'); ("instance", instance); ("type", Type_ ent)] >>
           let* _ := invoke respond (AddInvalid instance) in
           ret tt
       | None => ret tt
       end) >>
  forM_ toBeDeleted
    (fun e =>
       let* ent := assert_entry e in
       let* err := invoke respond (disable_call instance ent) in
       match err with
       | Some err' =>
           log_Info "[Vault Identity] failed to disable audit device"
             [("error", err'); ("instance", instance); ("type", Type_ ent)] >>
           let* _ := invoke respond (AddInvalid instance) in
           ret tt
       | None => ret tt
       end).

(** The body of the reconcile loop, for one instance. *)
Definition reconcile (dryRun : bool)
    (instancesToDesiredAudits : gmap string (list entry))
    (instance : string) : M W unit :=
  let* r := invoke respond (ListAuditDevices instance) in
  let enabledAudits := fst r in
  match snd r with
  | Some err =>
      log_Info "[Vault Identity] failed to list audit device"
        [("error", err); ("instance", instance)] >>
      let* _ := invoke respond (AddInvalid instance) in
      ret tt
  | None =>
      let existingAduits := existing_audits enabledAudits in
      let '(toBeWritten, toBeDeleted, _) :=
        vault.DiffItems
          (asItems (default [] (instancesToDesiredAudits !! instance)))
          (asItems existingAduits) in
      if dryRun
      then dry_run instance toBeWritten toBeDeleted
      else live_run instance toBeWritten toBeDeleted
  end.

(** [threadPoolSize] is not used by this package. *)
Definition Apply (entriesBytes : list Byte.byte) (dryRun : bool)
    (threadPoolSize : Z) : M W unit :=
  let* entries :=
    match Unmarshal entriesBytes with
    | Decoded entries => ret entries
    | DecodeError err =>
        log_Fatal err "[Vault Audit] failed to decode audit device configuration"
    end in
  let instancesToDesiredAudits := group_by_instance entries in
  forM_ InstanceAddresses (reconcile dryRun instancesToDesiredAudits) >>
  let* _ := invoke respond RemoveInstanceFromReconciliation in
  ret tt.

End WithVault.
End audit.

(** The built-in audit devices, which a delete would have to spare.  The
    audit package names none: it has no counterpart of [isDefaultMount] and
    [isDefaultPolicy], and its loop over [toBeDeleted] has no guard. *)
Definition isBuiltinAuditDevice (path : string) : bool := false.

(** ** Counting the keys of a diff *)

Module diff.
Import vault.

(** The desired item [d] has no item with its key in the table. *)
Definition absent (m : table) (d : Item) : bool :=
  match table_get (Key d) m with
  | None => true
  | Some _ => false
  end.

(** The table has an item with the key of [d], and [d] does not equal it. *)
Definition changed (m : table) (d : Item) : bool :=
  match table_get (Key d) m with
  | Some o => negb (Equals d (self o))
  | None => false
  end.

(** How many items of [l] have the key [k]. *)
Definition key_count (k : string) (l : list Item) : nat :=
  count_occ String.string_dec (map Key l) k.

(** The key [k] is classified once: it occurs at most once in the three
    outputs together; a key of [observed] only is one delete; a key of
    [desired] only is one create; a key of both is in no create and in no
    delete, and is one update exactly when the desired item does not equal
    the observed one; a key of neither input is in no output. *)
Definition classified (desired observed toCreate toDelete toUpdate : list Item)
    (k : string) : Prop :=
  key_count k toCreate + key_count k toUpdate + key_count k toDelete <= 1 /\
  (In k (map Key observed) -> ~ In k (map Key desired) ->
   key_count k toDelete = 1) /\
  (In k (map Key desired) -> ~ In k (map Key observed) ->
   key_count k toCreate = 1) /\
  (forall d o, In d desired -> In o observed -> Key d = k -> Key o = k ->
     key_count k toCreate = 0 /\ key_count k toDelete = 0 /\
     key_count k toUpdate = if Equals d (self o) then 0 else 1) /\
  (~ In k (map Key desired) -> ~ In k (map Key observed) ->
   key_count k toCreate = 0 /\ key_count k toUpdate = 0 /\
   key_count k toDelete = 0).
End diff.

(** ** Properties of traces *)

(** An event that changes the configuration of a target instance. *)
Definition mutates (ev : event) : bool :=
  match ev with
  | Called c _ => mutating c
  | Logged _ _ _ => false
  end.

(** The configuration-changing calls of a trace, in order. *)
Fixpoint mutations (t : list event) : list call :=
  match t with
  | [] => []
  | Called c _ :: t' => if mutating c then c :: mutations t' else mutations t'
  | Logged _ _ _ :: t' => mutations t'
  end.

(** A call against the instance [a]. *)
Definition touches (a : string) (ev : event) : bool :=
  match ev with
  | Called c _ => bool_decide (target c = Some a)
  | Logged _ _ _ => false
  end.

(** A call to [vault.AddInvalid]. *)
Definition marks_invalid (ev : event) : bool :=
  match ev with
  | Called (AddInvalid _) _ => true
  | _ => false
  end.

(** A remote call: one that reads or changes the configuration of an
    instance. *)
Definition remote (c : call) : bool := fetching c || mutating c.

(** After a call that returned an error, the trace has no further remote call
    against the same instance. *)
Fixpoint quiet_after_failure (t : list event) : bool :=
  match t with
  | [] => true
  | Called c (Some _) :: t' =>
      forallb
        (fun ev =>
           match ev with
           | Called c' _ => negb (remote c' && bool_decide (target c' = target c))
           | Logged _ _ _ => true
           end)
        t' &&
      quiet_after_failure t'
  | _ :: t' => quiet_after_failure t'
  end.

(** Every call of the trace that returned an error is followed by a log entry
    and by [vault.AddInvalid] of the instance the call was made against. *)
Inductive failures_marked : list event -> Prop :=
| marked_nil : failures_marked []
| marked_call c t :
    failures_marked t -> failures_marked (Called c None :: t)
| marked_log lvl msg fields t :
    failures_marked t -> failures_marked (Logged lvl msg fields :: t)
| marked_failure c err lvl msg fields a t :
    target c = Some a ->
    failures_marked t ->
    failures_marked
      (Called c (Some err) :: Logged lvl msg fields ::
       Called (AddInvalid a) None :: t).


(** [always P m]: every event of every run of [m] satisfies [P]. *)
Definition always {W A} (P : event -> Prop) (m : M W A) : Prop :=
  forall w, Forall P (trace (m w)).

(** [ensures P Q m]: moreover, a value that [m] returns satisfies [Q]. *)
Definition ensures {W A} (P : event -> Prop) (Q : A -> Prop) (m : M W A)
  : Prop :=
  forall w,
    Forall P (trace (m w)) /\ forall a, out (m w) = Returned a -> Q a.

(** [returns m]: every run of [m] returns; it neither exits nor panics. *)
Definition returns {W A} (m : M W A) : Prop :=
  forall w, exists a, out (m w) = Returned a.

(** [performs m l]: every run of [m] returns, and the configuration-changing
    calls of its trace are [l]. *)
Definition performs {W} (m : M W unit) (l : list call) : Prop :=
  forall w, out (m w) = Returned tt /\ mutations (trace (m w)) = l.

(** ** A concrete remote and concrete documents *)

Module example.

Definition file_device (path : string) : api.Audit :=
  {| api.au_Path := path; api.au_Type := "file";
     api.au_Description := ""; api.au_Options := ∅ |}.

Definition engine (type description : string) : api.MountOutput :=
  {| api.mo_Type := type; api.mo_Description := description;
     api.mo_Options := ∅ |}.

(** A remote without state.  Every instance has the engines [sys/],
    [secret/] and [old/], the policies [root], [default], [p] and [stale],
    and the audit devices [devices]; the instance [down] fails to list its
    audit devices, and no instance lets the device [a/] be enabled. *)
Definition respond (devices : list (string * api.Audit))
    (c : call) (w : unit) : response c * unit :=
  (match c return response c with
   | ListSecretsEngines _ =>
       [("sys/", engine "system" "system endpoints");
        ("secret/", engine "kv" "key/value store");
        ("old/", engine "kv" "retired")]
   | ListVaultPolicies _ => ["root"; "default"; "p"; "stale"]
   | GetVaultPolicy _ name => "old rules of " +:+ name
   | ListAuditDevices a =>
       if String.eqb a "down"
       then ([], Some "connection refused")
       else (devices, None)
   | EnableAuditDevice _ path _ =>
       if String.eqb path "a/" then Some "permission denied" else None
   | DisableAuditDevice _ _ => None
   | _ => tt
   end, w).

Definition devices : list (string * api.Audit) :=
  [("file/", file_device "file/")].

Definition on (a : string) : instance.Instance :=
  {| instance.Address := a |}.

(** The documents: one secrets engine, two policies and two audit devices,
    all of the instance [x]. *)
Definition engines : list secretsengine.entry :=
  [{| secretsengine.Path := "kv/"; secretsengine.Type_ := "kv";
      secretsengine.Instance := on "x";
      secretsengine.Description := "team secrets";
      secretsengine.Options := ∅ |}].

Definition policy_p : policy.entry :=
  {| policy.Name := "p"; policy.Rules := "new rules of p";
     policy.Type_ := ""; policy.Instance := on "x";
     policy.Description := "" |}.

Definition policy_q : policy.entry :=
  {| policy.Name := "q"; policy.Rules := "rules of q";
     policy.Type_ := ""; policy.Instance := on "x";
     policy.Description := "" |}.

Definition policies : list policy.entry := [policy_p; policy_q].

Definition audit_device (path : string) : audit.entry :=
  {| audit.Path := path; audit.Type_ := "file"; audit.Description := "";
     audit.Instance := on "x"; audit.Options := ∅ |}.

Definition audits : list audit.entry := [audit_device "a/"; audit_device "b/"].

(** The scenario of section 8 of the specification, as policies whose
    rules are the values: desired [a:1, b:2], observed [b:9, c:3]. *)
Definition scenario (name rules : string) : policy.entry :=
  {| policy.Name := name; policy.Rules := rules; policy.Type_ := "";
     policy.Instance := on "x"; policy.Description := "" |}.

Definition scenario_desired : list vault.Item :=
  policy.asItems [scenario "a" "1"; scenario "b" "2"].

Definition scenario_observed : list vault.Item :=
  policy.asItems [scenario "b" "9"; scenario "c" "3"].

(** Stand-ins for [vault.EqualPathNames] and [vault.OptionsEqual]. *)
Definition EqualPathNames : string -> string -> bool := String.eqb.
Definition OptionsEqual (x y : gmap string value) : bool := true.

(** The configured instances. *)
Definition InstanceAddresses : list string := ["x"; "y"].

(** A visit of a map in the order of [map_to_list], and a fan-out that runs
    its units in the order of the slice. *)
Definition visit (m : gmap string (list string))
    : list (string * list string) := map_to_list m.
Definition schedule (names : list string) : list string := names.

(** And they append their entries in that order. *)
Definition completion (got : list policy.entry) : list policy.entry := got.

Definition secretsengine_Apply (dryRun : bool) : run (W:=unit) unit :=
  secretsengine.Apply (respond devices) EqualPathNames OptionsEqual
    (fun _ => Decoded engines) InstanceAddresses [] dryRun 2 tt.

Definition policy_Apply (dryRun : bool) : run (W:=unit) unit :=
  policy.Apply (respond devices) (fun _ => Decoded policies)
    InstanceAddresses visit schedule completion [] dryRun 2 tt.

Definition audit_Apply (documents : list audit.entry)
    (addresses : list string) (dryRun : bool) : run (W:=unit) unit :=
  audit.Apply (respond devices) EqualPathNames OptionsEqual
    (fun _ => Decoded documents) addresses [] dryRun 2 tt.

End example.

(** ** Further projections of traces *)

(** The fetching calls of a trace, in order. *)
Fixpoint fetches (t : list event) : list call :=
  match t with
  | [] => []
  | Called c _ :: t' => if fetching c then c :: fetches t' else fetches t'
  | Logged _ _ _ :: t' => fetches t'
  end.

(** The elements of [l] that are not in [seen], each at its first
    occurrence. *)
Fixpoint unseen (seen l : list string) : list string :=
  match l with
  | [] => []
  | a :: l' =>
      if existsb (String.eqb a) seen then unseen seen l'
      else a :: unseen (a :: seen) l'
  end.

Definition first_occurrences (l : list string) : list string := unseen [] l.

(** [emits m l]: every run of [m] returns, and its trace is [l]. *)
Definition emits {W} (m : M W unit) (l : list event) : Prop :=
  forall w, out (m w) = Returned tt /\ trace (m w) = l.

(** The loop of [ambiguousOptions], run over the bindings of [e.Options] in
    the order [visited] of the [range]: [opts[k] = v]. *)
Definition ambiguousOptions_range (visited : list (string * string))
  : gmap string value :=
  fold_left
    (fun (opts : gmap string value) kv => <[fst kv := VString (snd kv)]> opts)
    visited ∅.


(** An event that is no fetching call. *)
Definition quiet_fetch (ev : event) : Prop :=
  match ev with
  | Called c _ => fetching c = false
  | Logged _ _ _ => True
  end.

(** A call that changes an instance is made against one of [addresses]. *)
Definition mutates_within (addresses : list string) (ev : event) : Prop :=
  match ev with
  | Called c _ =>
      mutating c = true -> exists a, In a addresses /\ target c = Some a
  | Logged _ _ _ => True
  end.

(** An event that is no call to [vault.RemoveInstanceFromReconciliation]. *)
Definition not_remove (ev : event) : Prop :=
  forall err, ev <> Called RemoveInstanceFromReconciliation err.

(** [AddInvalid] of the instance [a]. *)
Definition adds_invalid (a : string) (ev : event) : bool :=
  match ev with
  | Called (AddInvalid b) _ => String.eqb a b
  | _ => false
  end.

(** A call against the instance [a] that returned an error. *)
Definition failed_on (a : string) (ev : event) : bool :=
  match ev with
  | Called c (Some _) => bool_decide (target c = Some a)
  | _ => false
  end.

(** The trace calls [vault.AddInvalid] after every call that returned an
    error, for the instance of that call, and nowhere else. *)
Inductive marked_exactly : list event -> Prop :=
| exactly_nil : marked_exactly []
| exactly_call c t :
    marks_invalid (Called c None) = false ->
    marked_exactly t -> marked_exactly (Called c None :: t)
| exactly_log lvl msg fields t :
    marked_exactly t -> marked_exactly (Logged lvl msg fields :: t)
| exactly_failure c err lvl msg fields a t :
    target c = Some a ->
    marks_invalid (Called c (Some err)) = false ->
    marked_exactly t ->
    marked_exactly
      (Called c (Some err) :: Logged lvl msg fields ::
       Called (AddInvalid a) None :: t).

(** ** The lines of a dry run and the calls of a live run *)

Module dry.

Definition engine_enabled (ent : secretsengine.entry) : event :=
  Logged InfoLevel
    "[Dry Run] [Vault Secrets engine] secrets-engine to be enabled"
    [("path", secretsengine.Path ent); ("type", secretsengine.Type_ ent)].

Definition engine_updated (ent : secretsengine.entry) : event :=
  Logged InfoLevel
    "[Dry Run] [Vault Secrets engine] secrets-engine to be updated"
    [("path", secretsengine.Path ent); ("type", secretsengine.Type_ ent)].

Definition engine_disabled (ent : secretsengine.entry) : event :=
  Logged InfoLevel
    "[Dry Run] [Vault Secrets engine] secrets-engine to be disabled"
    [("path", secretsengine.Path ent); ("type", secretsengine.Type_ ent)].

Definition policy_written (ent : policy.entry) : event :=
  Logged InfoLevel
    ("[Dry Run] [Vault Policy] policy to be written='" +:+
     policy.Name ent +:+ "'") [].

Definition policy_deleted (ent : policy.entry) : event :=
  Logged InfoLevel
    ("[Dry Run] [Vault Policy] policy to be deleted='" +:+
     policy.Name ent +:+ "'") [].

Definition device_enabled (instance : string) (ent : audit.entry) : event :=
  Logged InfoLevel "[Dry Run] [Vault Audit] audit device to be enabled"
    [("path", audit.Path ent); ("instance", instance)].

Definition device_disabled (instance : string) (ent : audit.entry) : event :=
  Logged InfoLevel "[Dry Run] [Vault Audit] audit device to be disabled"
    [("path", audit.Path ent); ("instance", instance)].

(** What a pass over one instance has to do: the instance with the creates,
    the deletes and the updates of its diff. *)
Definition engine_plan : Type :=
  string *
  (list secretsengine.entry * list secretsengine.entry * list secretsengine.entry).

Definition engine_lines (p : engine_plan) : list event :=
  let '(_, (cs, ds, us)) := p in
  (map engine_enabled cs ++ map engine_updated us ++
   map engine_disabled
     (List.filter
        (fun e => negb (secretsengine.isDefaultMount (secretsengine.Path e)))
        ds))%list.

Definition engine_calls (p : engine_plan) : list call :=
  let '(instance, (cs, ds, us)) := p in
  (map (secretsengine.enable_call instance) cs ++
   map (secretsengine.update_call instance) us ++
   map (secretsengine.disable_call instance)
     (List.filter
        (fun e => negb (secretsengine.isDefaultMount (secretsengine.Path e)))
        ds))%list.

Definition policy_plan : Type :=
  string * (list policy.entry * list policy.entry).

Definition policy_lines (p : policy_plan) : list event :=
  let '(_, (cs, ds)) := p in
  (map policy_written cs ++
   map policy_deleted
     (List.filter (fun e => negb (policy.isDefaultPolicy (policy.Name e))) ds))%list.

Definition policy_calls (p : policy_plan) : list call :=
  let '(instance, (cs, ds)) := p in
  (map (policy.put_call instance) cs ++
   map (policy.delete_call instance)
     (List.filter (fun e => negb (policy.isDefaultPolicy (policy.Name e))) ds))%list.

End dry.

(** ** Package [utils]: the metrics *)

Module utils.

(** The label values of a metric, in the order of its label names
    [address], [integration]. *)
Definition labels : Type := (string * string)%type.

Section Metrics.
(** The type [float64], the conversion [float64(n)] of an [int], the
    [Seconds] of a [time.Duration] given in nanoseconds, and [x + 1]. *)
Variable float64 : Type.
Variable float64_of_int : Z -> float64.
Variable Seconds : Z -> float64.
Variable zero : float64.
Variable plus_one : float64 -> float64.

(** The three metric vectors.  A vector has a child for each label values
    that [With] was called with; a child starts at zero. *)
Record metrics := {
  reconcileSuccessCounter : gmap labels float64;
  lastReconcileSuccessGauge : gmap labels float64;
  executionDurationGauge : gmap labels float64 }.

Definition INTEGRATION : string := "vault-manager".

Definition RecordMetrics (instance : string) (status : Z) (duration : Z)
    (m : metrics) : metrics :=
  let m1 :=
    {| reconcileSuccessCounter := reconcileSuccessCounter m;
       lastReconcileSuccessGauge :=
         <[(instance, INTEGRATION) := float64_of_int status]>
           (lastReconcileSuccessGauge m);
       executionDurationGauge := executionDurationGauge m |} in
  let m2 :=
    if Z.eqb status 0 then
      {| reconcileSuccessCounter :=
           <[(instance, INTEGRATION) :=
               plus_one (default zero
                           (reconcileSuccessCounter m1 !! (instance, INTEGRATION)))]>
             (reconcileSuccessCounter m1);
         lastReconcileSuccessGauge := lastReconcileSuccessGauge m1;
         executionDurationGauge := executionDurationGauge m1 |}
    else m1 in
  {| reconcileSuccessCounter := reconcileSuccessCounter m2;
     lastReconcileSuccessGauge := lastReconcileSuccessGauge m2;
     executionDurationGauge :=
       <[(instance, INTEGRATION) := Seconds duration]>
         (executionDurationGauge m2) |}.

(** A run of recordings: [(instance, status, duration)], in order. *)
Definition record_all (rs : list (string * Z * Z)) (m : metrics) : metrics :=
  fold_left (fun m r => RecordMetrics (fst (fst r)) (snd (fst r)) (snd r) m) rs m.

(** The successful recordings of [instance] among [rs]. *)
Definition successes (instance : string) (rs : list (string * Z * Z)) : nat :=
  length
    (List.filter
       (fun r => String.eqb (fst (fst r)) instance && Z.eqb (snd (fst r)) 0) rs).

End Metrics.
End utils.

(** Metrics with no child yet, over the integers as a stand-in for
    [float64]. *)
Definition no_metrics : utils.metrics Z :=
  {| utils.reconcileSuccessCounter := ∅;
     utils.lastReconcileSuccessGauge := ∅;
     utils.executionDurationGauge := ∅ |}.

(** ** A document that names two instances *)

Module example_two.

Definition engine (path address : string) : secretsengine.entry :=
  {| secretsengine.Path := path; secretsengine.Type_ := "kv";
     secretsengine.Instance := example.on address;
     secretsengine.Description := ""; secretsengine.Options := ∅ |}.

(** Three engines, of the instances [x], [y] and [x] again. *)
Definition engines : list secretsengine.entry :=
  [engine "kv/" "x"; engine "kv/" "y"; engine "app/" "x"].

Definition secretsengine_Apply (dryRun : bool) : run (W:=unit) unit :=
  secretsengine.Apply (example.respond example.devices)
    example.EqualPathNames example.OptionsEqual
    (fun _ => Decoded engines) example.InstanceAddresses [] dryRun 2 tt.

End example_two.

(** ** The same observed objects in two orders *)

Module example_reordered.

Definition engine (path : string) : secretsengine.entry :=
  {| secretsengine.Path := path; secretsengine.Type_ := "kv";
     secretsengine.Instance := instance.zero;
     secretsengine.Description := ""; secretsengine.Options := ∅ |}.

(** The existing engines [old/] and [tmp/] of the instance [x], as one run
    ranges over them and as another run does. *)
Definition engines : gmap string (list secretsengine.entry) :=
  {[ "x" := [engine "old/"; engine "tmp/"] ]}.

Definition engines' : gmap string (list secretsengine.entry) :=
  {[ "x" := [engine "tmp/"; engine "old/"] ]}.

Definition policy (name : string) : policy.entry :=
  {| policy.Name := name; policy.Rules := "rules of " +:+ name;
     policy.Type_ := ""; policy.Instance := instance.zero;
     policy.Description := "" |}.

(** The existing policies [stale] and [spare] of the instance [x], as the
    units of one fan-out append them and as those of another do. *)
Definition policies : gmap string (list policy.entry) :=
  {[ "x" := [policy "stale"; policy "spare"] ]}.

Definition policies' : gmap string (list policy.entry) :=
  {[ "x" := [policy "spare"; policy "stale"] ]}.

(** A remote with the audit devices [file/] and [syslog/], whose state is
    the order in which the devices listed are ranged over. *)
Definition respond (c : call) (turned : bool) : response c * bool :=
  (match c return response c with
   | ListSecretsEngines _ => []
   | ListVaultPolicies _ => []
   | GetVaultPolicy _ _ => ""
   | ListAuditDevices _ =>
       (if turned
        then [("syslog/", example.file_device "syslog/");
              ("file/", example.file_device "file/")]
        else [("file/", example.file_device "file/");
              ("syslog/", example.file_device "syslog/")],
        None)
   | EnableAuditDevice _ _ _ => None
   | DisableAuditDevice _ _ => None
   | _ => tt
   end, turned).

End example_reordered.

(** * Theorems *)

(** ** The process monad *)

Section ProcessFacts.
Context {W : Type}.
Variable respond : forall c : call, W -> response c * W.

Lemma trace_bind {A B} (m : M W A) (f : A -> M W B) w :
  trace (bind m f w) =
  match out (m w) with
  | Returned a => (trace (m w) ++ trace (f a (world (m w))))%list
  | Stopped _ => trace (m w)
  end.
Proof. unfold bind. destruct (out (m w)); reflexivity. Qed.

Lemma out_bind {A B} (m : M W A) (f : A -> M W B) w :
  out (bind m f w) =
  match out (m w) with
  | Returned a => out (f a (world (m w)))
  | Stopped why => Stopped why
  end.
Proof. unfold bind. destruct (out (m w)); reflexivity. Qed.

Lemma world_bind {A B} (m : M W A) (f : A -> M W B) w :
  world (bind m f w) =
  match out (m w) with
  | Returned a => world (f a (world (m w)))
  | Stopped why => world (m w)
  end.
Proof. unfold bind. destruct (out (m w)); reflexivity. Qed.

Section Always.
Variable P : event -> Prop.

Lemma always_ret {A} (a : A) : always P (ret (W:=W) a).
Proof. intros w. constructor. Qed.

Lemma always_panic {A} : always P (panic (W:=W) (A:=A)).
Proof. intros w. constructor. Qed.

Lemma always_bind {A B} (m : M W A) (f : A -> M W B) :
  always P m -> (forall a, always P (f a)) -> always P (bind m f).
Proof.
  intros Hm Hf w. rewrite trace_bind.
  destruct (out (m w)) as [a|why]; [|apply Hm].
  apply Forall_app. split; [apply Hm|apply Hf].
Qed.

Lemma always_invoke (c : call) :
  (forall err, P (Called c err)) -> always P (invoke respond c).
Proof. intros H w. repeat constructor. apply H. Qed.

Lemma always_log_Info msg fields :
  P (Logged InfoLevel msg fields) -> always P (log_Info (W:=W) msg fields).
Proof. intros H w. repeat constructor. exact H. Qed.

Lemma always_log_Fatal {A} err msg :
  P (Logged FatalLevel msg [("error", err)]) ->
  always P (log_Fatal (W:=W) (A:=A) err msg).
Proof. intros H w. repeat constructor. exact H. Qed.

Lemma always_forM {A} (xs : list A) (body : A -> M W unit) :
  (forall x, always P (body x)) -> always P (forM_ xs body).
Proof.
  intros H. induction xs as [|x xs IH]; simpl.
  - apply always_ret.
  - apply always_bind; [apply H|intros _; exact IH].
Qed.

Lemma always_foldM {A B} (body : B -> A -> M W B) (xs : list A) :
  (forall b x, always P (body b x)) -> forall b, always P (foldM body xs b).
Proof.
  intros H. induction xs as [|x xs IH]; intros b; simpl.
  - apply always_ret.
  - apply always_bind; [apply H|intros b'; apply IH].
Qed.
End Always.
End ProcessFacts.

(** ** Equality of entries *)

(** C7. For an entry [e] of any of the three packages and a value [i] whose
    dynamic type is not the [entry] type of that package, [e.Equals(i)]
    returns [false]: the comma-ok type assertion fails and the method returns
    before it reads [i]; [Equals] is a total function, it has no failing
    case. *)
Theorem Equals_other_type_false :
  (forall EqualPathNames OptionsEqual (e : secretsengine.entry) (i : value),
      typeOf i <> TSecretsEngineEntry ->
      secretsengine.Equals EqualPathNames OptionsEqual e i = false) /\
  (forall (e : policy.entry) (i : value),
      typeOf i <> TPolicyEntry -> policy.Equals e i = false) /\
  (forall EqualPathNames OptionsEqual (e : audit.entry) (i : value),
      typeOf i <> TAuditEntry ->
      audit.Equals EqualPathNames OptionsEqual e i = false).
Proof.
  repeat split; intros; destruct i; simpl in *; congruence.
Qed.

Lemma Equals_other_type_false_witness :
  typeOf (VAudit (example.audit_device "file/")) <> TSecretsEngineEntry /\
  secretsengine.Equals example.EqualPathNames example.OptionsEqual
    {| secretsengine.Path := "file/"; secretsengine.Type_ := "file";
       secretsengine.Instance := example.on "x";
       secretsengine.Description := ""; secretsengine.Options := ∅ |}
    (VAudit (example.audit_device "file/")) = false /\
  policy.Equals example.policy_p (VPointer (VPolicy example.policy_p)) = false /\
  audit.Equals example.EqualPathNames example.OptionsEqual
    (example.audit_device "file/") VNil = false.
Proof.
  split; [discriminate|]. split; [|split].
  - apply (proj1 Equals_other_type_false). discriminate.
  - apply (proj1 (proj2 Equals_other_type_false)). discriminate.
  - apply (proj2 (proj2 Equals_other_type_false)). discriminate.
Defined.

(** C8. Two policy entries are [Equals] exactly when their names are equal
    and their rules are the same string; hence for two policies with the same
    key, [Equals] holds exactly when the rules are identical. *)
Theorem policy_Equals_iff (d o : policy.entry) :
  (policy.Equals d (VPolicy o) = true <->
   policy.Name d = policy.Name o /\ policy.Rules d = policy.Rules o) /\
  (policy.Key d = policy.Key o ->
   (policy.Equals d (VPolicy o) = true <-> policy.Rules d = policy.Rules o)).
Proof.
  assert (E : policy.Equals d (VPolicy o) = true <->
              policy.Name d = policy.Name o /\ policy.Rules d = policy.Rules o).
  { unfold policy.Equals. rewrite andb_true_iff, !String.eqb_eq. tauto. }
  split; [exact E|].
  unfold policy.Key. intros HK. rewrite E. tauto.
Qed.

Lemma policy_Equals_iff_witness :
  policy.Key example.policy_p = policy.Key (example.scenario "p" "new rules of p") /\
  (policy.Equals example.policy_p
     (VPolicy (example.scenario "p" "new rules of p")) = true <->
   policy.Rules example.policy_p =
   policy.Rules (example.scenario "p" "new rules of p")).
Proof.
  split; [reflexivity|].
  exact (proj2 (policy_Equals_iff example.policy_p
                  (example.scenario "p" "new rules of p")) eq_refl).
Defined.

(** ** The diff engine *)

Section DiffFacts.
Import vault diff.

Lemma diff_fold (m : table) (ds : list Item) (acc : diff_acc) :
  fold_left (diff_step m) ds acc =
  {| toCreate := (toCreate acc ++ List.filter (absent m) ds)%list;
     toUpdate := (toUpdate acc ++ List.filter (changed m) ds)%list;
     marks :=
       (rev (map Key (List.filter (fun d => negb (absent m d)) ds)) ++ marks acc)%list |}.
Proof.
  revert acc. induction ds as [|d ds IH]; intros acc; simpl.
  - rewrite !app_nil_r. destruct acc; reflexivity.
  - rewrite IH. unfold diff_step, absent, changed.
    destruct (table_get (Key d) m) as [o|]; simpl.
    + destruct (Equals d (self o)); simpl; rewrite <- ?app_assoc; reflexivity.
    + rewrite <- ?app_assoc. reflexivity.
Qed.

Lemma DiffItems_filters (desired observed : list Item) :
  DiffItems desired observed =
  (List.filter (absent (build_table observed)) desired,
   map snd
     (List.filter
        (fun kv =>
           negb (consumed (fst kv)
                   (rev (map Key
                           (List.filter (fun d => negb (absent (build_table observed) d))
                              desired)))))
        (build_table observed)),
   List.filter (changed (build_table observed)) desired).
Proof.
  unfold DiffItems. rewrite diff_fold. simpl. rewrite app_nil_r. reflexivity.
Qed.

(** Tables *)

Lemma table_put_fresh k v (m : table) :
  ~ In k (map fst m) -> table_put k v m = (m ++ [(k, v)])%list.
Proof.
  induction m as [|[k' v'] m IH]; simpl; intros Hn; [reflexivity|].
  destruct (String.eqb_spec k k') as [->|Hne]; [tauto|].
  rewrite IH; [reflexivity|tauto].
Qed.

Lemma build_table_from (os : list Item) (m : table) :
  List.NoDup (map fst m ++ map Key os) ->
  fold_left (fun m o => table_put (Key o) o m) os m =
  (m ++ map (fun o => (Key o, o)) os)%list.
Proof.
  revert m. induction os as [|o os IH]; intros m Hnd; simpl.
  - rewrite app_nil_r. reflexivity.
  - simpl in Hnd. pose proof Hnd as Hnd'.
    apply List.NoDup_remove in Hnd' as [Hnd1 Hnotin].
    rewrite table_put_fresh.
    + rewrite IH.
      * rewrite <- app_assoc. reflexivity.
      * rewrite map_app. simpl. rewrite <- app_assoc. simpl. exact Hnd.
    + intros Hin. apply Hnotin. apply in_or_app. left. exact Hin.
Qed.

Lemma build_table_NoDup (os : list Item) :
  List.NoDup (map Key os) -> build_table os = map (fun o => (Key o, o)) os.
Proof. intros H. unfold build_table. rewrite build_table_from; [reflexivity|exact H]. Qed.

Lemma table_put_values (P : Item -> Prop) k v (m : table) :
  P v -> Forall (fun kv => P (snd kv)) m ->
  Forall (fun kv => P (snd kv)) (table_put k v m).
Proof.
  intros Hv. induction m as [|[k' v'] m IH]; simpl; intros Hm.
  - repeat constructor. exact Hv.
  - inversion Hm; subst. destruct (String.eqb k k'); constructor; auto.
Qed.

Lemma build_table_values (P : Item -> Prop) (os : list Item) :
  Forall P os -> Forall (fun kv => P (snd kv)) (build_table os).
Proof.
  unfold build_table. intros H.
  assert (G : forall m, Forall (fun kv => P (snd kv)) m ->
              Forall (fun kv => P (snd kv))
                (fold_left (fun m o => table_put (Key o) o m) os m)).
  { induction H as [|o os Ho Hos IH]; intros m Hm; simpl; [exact Hm|].
    apply IH. apply table_put_values; assumption. }
  apply G. constructor.
Qed.

Lemma Forall_filter_keep {A} (P : A -> Prop) f (l : list A) :
  Forall P l -> Forall P (List.filter f l).
Proof.
  induction 1 as [|x l Hx Hl IH]; simpl; [constructor|].
  destruct (f x); [constructor|]; assumption.
Qed.

(** The outputs of [DiffItems] are items of its inputs. *)
Lemma DiffItems_Forall (P : Item -> Prop) (desired observed : list Item) :
  Forall P desired -> Forall P observed ->
  Forall P (fst (fst (DiffItems desired observed))) /\
  Forall P (snd (fst (DiffItems desired observed))) /\
  Forall P (snd (DiffItems desired observed)).
Proof.
  intros Hd Ho. rewrite DiffItems_filters. simpl. repeat split.
  - apply Forall_filter_keep, Hd.
  - apply Forall_map. simpl. apply Forall_filter_keep. apply build_table_values, Ho.
  - apply Forall_filter_keep, Hd.
Qed.

Lemma DiffItems_nil : DiffItems [] [] = ([], [], []).
Proof. reflexivity. Qed.

(** Tables built from a sequence with unique keys *)

Lemma table_get_keyed_None k (os : list Item) :
  table_get k (map (fun o => (Key o, o)) os) = None <-> ~ In k (map Key os).
Proof.
  induction os as [|o os IH]; simpl; [tauto|].
  destruct (String.eqb_spec k (Key o)) as [->|Hne].
  - split; [discriminate|tauto].
  - rewrite IH. split; [|tauto]. intros H [E|Hin]; [congruence|tauto].
Qed.

Lemma table_get_keyed_Some k (os : list Item) o :
  table_get k (map (fun o => (Key o, o)) os) = Some o -> In o os /\ Key o = k.
Proof.
  induction os as [|o' os IH]; simpl; [discriminate|].
  destruct (String.eqb_spec k (Key o')) as [->|Hne].
  - intros [= ->]. tauto.
  - intros H. apply IH in H. tauto.
Qed.

Lemma table_get_keyed_In (os : list Item) o :
  List.NoDup (map Key os) -> In o os ->
  table_get (Key o) (map (fun o => (Key o, o)) os) = Some o.
Proof.
  induction os as [|o' os IH]; simpl; [tauto|].
  intros Hnd [->|Hin].
  - rewrite String.eqb_refl. reflexivity.
  - inversion Hnd as [|? ? Hnotin Hnd']; subst.
    destruct (String.eqb_spec (Key o) (Key o')) as [E|Hne].
    + exfalso. apply Hnotin. rewrite <- E. apply in_map, Hin.
    + apply IH; assumption.
Qed.

(** Counting keys *)

Lemma key_count_notin k (l : list Item) :
  ~ In k (map Key l) -> key_count k l = 0.
Proof. intros H. unfold key_count. apply count_occ_not_In, H. Qed.

Lemma key_count_filter_notin k f (l : list Item) :
  ~ In k (map Key l) -> key_count k (List.filter f l) = 0.
Proof.
  intros H. apply key_count_notin. intros Hin. apply H.
  apply in_map_iff in Hin as (x & <- & Hx). apply filter_In in Hx as [Hx _].
  apply in_map, Hx.
Qed.

Lemma key_count_filter_in f (l : list Item) x :
  List.NoDup (map Key l) -> In x l ->
  key_count (Key x) (List.filter f l) = if f x then 1 else 0.
Proof.
  induction l as [|h l IH]; simpl; [tauto|].
  intros Hnd Hin. inversion Hnd as [|? ? Hnotin Hnd']; subst.
  destruct Hin as [->|Hin].
  - pose proof (key_count_filter_notin (Key x) f l Hnotin) as Hz.
    destruct (f x); [|exact Hz].
    unfold key_count in *. simpl.
    destruct (String.string_dec (Key x) (Key x)); [|congruence].
    rewrite Hz. reflexivity.
  - assert (Hne : Key h <> Key x).
    { intros E. apply Hnotin. rewrite E. apply in_map, Hin. }
    specialize (IH Hnd' Hin).
    destruct (f h); [|exact IH].
    unfold key_count in *. simpl.
    destruct (String.string_dec (Key h) (Key x)); [congruence|exact IH].
Qed.

Lemma filter_keyed g (os : list Item) :
  map snd (List.filter g (map (fun o => (Key o, o)) os)) =
  List.filter (fun o => g (Key o, o)) os.
Proof.
  induction os as [|o os IH]; simpl; [reflexivity|].
  destruct (g (Key o, o)); simpl; rewrite IH; reflexivity.
Qed.

Lemma consumed_marks k (m : table) (ds : list Item) :
  consumed k (rev (map Key (List.filter (fun d => negb (absent m d)) ds))) = true <->
  exists d, In d ds /\ Key d = k /\ absent m d = false.
Proof.
  unfold consumed. rewrite existsb_exists. split.
  - intros (k' & Hin & E). apply String.eqb_eq in E. subst k'.
    apply in_rev, in_map_iff in Hin as (d & Hk & Hd).
    apply filter_In in Hd as [Hd Hm]. exists d.
    apply negb_true_iff in Hm. tauto.
  - intros (d & Hd & Hk & Hm). exists k. split; [|apply String.eqb_refl].
    apply in_rev. rewrite rev_involutive. apply in_map_iff. exists d.
    split; [exact Hk|]. apply filter_In. rewrite Hm. tauto.
Qed.
End DiffFacts.

Section DiffPartition.
Import vault diff.

(** C3. For sequences [desired] and [observed] with unique keys, every key is
    classified once by [DiffItems]: a key of [observed] only is exactly one
    delete, a key of [desired] only is exactly one create, a key of both is
    never a create or a delete and is an update exactly when the desired item
    does not equal the observed one; no key occurs twice in the outputs. *)
Theorem DiffItems_partition (desired observed : list Item)
    (toCreate toDelete toUpdate : list Item) (k : string) :
  List.NoDup (map Key desired) ->
  List.NoDup (map Key observed) ->
  DiffItems desired observed = (toCreate, toDelete, toUpdate) ->
  classified desired observed toCreate toDelete toUpdate k.
Proof.
  intros HD HO HE. unfold classified. rewrite DiffItems_filters in HE.
  rewrite (build_table_NoDup observed HO) in HE. rewrite filter_keyed in HE.
  injection HE as <- <- <-. simpl.
  set (m := map (fun o => (Key o, o)) observed).
  set (mk := rev (map Key (List.filter (fun d => negb (absent m d)) desired))).
  (* the three counts, by where [k] occurs *)
  assert (Hdes : forall d, In d desired -> Key d = k ->
            key_count k (List.filter (absent m) desired) = (if absent m d then 1 else 0) /\
            key_count k (List.filter (changed m) desired) = (if changed m d then 1 else 0)).
  { intros d Hd <-. split; apply key_count_filter_in; assumption. }
  assert (Hobs : forall o, In o observed -> Key o = k ->
            key_count k (List.filter (fun o => negb (consumed (Key o) mk)) observed) =
            if consumed k mk then 0 else 1).
  { intros o Ho <-. rewrite (key_count_filter_in _ observed o HO Ho). simpl.
    destruct (consumed (Key o) mk); reflexivity. }
  assert (Hcons : consumed k mk = true <->
                  In k (map Key desired) /\ In k (map Key observed)).
  { unfold mk. rewrite consumed_marks. split.
    - intros (d & Hd & Hk & Hm). split.
      + rewrite <- Hk. apply in_map, Hd.
      + unfold absent in Hm. destruct (table_get (Key d) m) as [o|] eqn:G; [|discriminate].
        apply table_get_keyed_Some in G as [Ho Hko]. rewrite <- Hk, <- Hko. apply in_map, Ho.
    - intros [Hd Ho]. apply in_map_iff in Hd as (d & Hk & Hd). exists d.
      split; [exact Hd|]. split; [exact Hk|].
      unfold absent. destruct (table_get (Key d) m) eqn:G; [reflexivity|].
      apply table_get_keyed_None in G. rewrite Hk in G. tauto. }
  destruct (in_dec String.string_dec k (map Key desired)) as [InD|NotD];
  destruct (in_dec String.string_dec k (map Key observed)) as [InO|NotO].
  - (* in both *)
    pose proof InD as InD'. pose proof InO as InO'.
    apply in_map_iff in InD' as (d & Hkd & Hd).
    apply in_map_iff in InO' as (o & Hko & Ho).
    destruct (Hdes d Hd Hkd) as [Hc Hu]. pose proof (Hobs o Ho Hko) as Hdl.
    assert (Hcm : consumed k mk = true) by (apply Hcons; tauto).
    rewrite Hcm in Hdl.
    assert (G : table_get (Key d) m = Some o).
    { rewrite Hkd, <- Hko. apply table_get_keyed_In; assumption. }
    assert (Ha : absent m d = false) by (unfold absent; rewrite G; reflexivity).
    assert (Hch : changed m d = negb (Equals d (self o)))
      by (unfold changed; rewrite G; reflexivity).
    rewrite Ha in Hc. rewrite Hch in Hu.
    rewrite Hc, Hu, Hdl.
    split; [destruct (Equals d (self o)); simpl; lia|].
    split; [tauto|]. split; [tauto|]. split; [|tauto].
    intros d' o' Hd' Ho' Hkd' Hko'.
    assert (o' = o).
    { pose proof (table_get_keyed_In observed o' HO Ho') as G'.
      fold m in G'. rewrite Hko', <- Hkd, G in G'. congruence. }
    subst o'.
    assert (Gd : table_get (Key d') m = Some o) by (rewrite Hkd', <- Hkd; exact G).
    destruct (Hdes d' Hd' Hkd') as [_ Hu'].
    assert (Hch' : changed m d' = negb (Equals d' (self o)))
      by (unfold changed; rewrite Gd; reflexivity).
    rewrite Hch' in Hu'. rewrite Hu' in Hu.
    repeat split. destruct (Equals d' (self o)), (Equals d (self o)); simpl in *; congruence.
  - (* desired only *)
    pose proof InD as InD'. apply in_map_iff in InD' as (d & Hkd & Hd).
    destruct (Hdes d Hd Hkd) as [Hc Hu].
    assert (G : table_get (Key d) m = None).
    { apply table_get_keyed_None. rewrite Hkd. exact NotO. }
    assert (Ha : absent m d = true) by (unfold absent; rewrite G; reflexivity).
    assert (Hch : changed m d = false) by (unfold changed; rewrite G; reflexivity).
    rewrite Ha in Hc. rewrite Hch in Hu.
    rewrite Hc, Hu, (key_count_filter_notin k _ observed NotO).
    split; [simpl; lia|]. split; [tauto|]. split; [tauto|]. split; [|tauto].
    intros d' o' _ Ho' _ Hko'. exfalso. apply NotO. rewrite <- Hko'. apply in_map, Ho'.
  - (* observed only *)
    pose proof InO as InO'. apply in_map_iff in InO' as (o & Hko & Ho).
    pose proof (Hobs o Ho Hko) as Hdl.
    assert (Hcm : consumed k mk = false).
    { apply not_true_is_false. intros E. apply Hcons in E. tauto. }
    rewrite Hcm in Hdl.
    rewrite Hdl, !(key_count_filter_notin k _ desired NotD).
    split; [simpl; lia|]. split; [tauto|]. split; [tauto|]. split; [|tauto].
    intros d' o' Hd' _ Hkd' _. exfalso. apply NotD. rewrite <- Hkd'. apply in_map, Hd'.
  - (* in neither *)
    rewrite !(key_count_filter_notin k _ desired NotD),
            (key_count_filter_notin k _ observed NotO).
    split; [simpl; lia|]. split; [tauto|]. split; [tauto|]. split; [|tauto].
    intros d' o' Hd' _ Hkd' _. exfalso. apply NotD. rewrite <- Hkd'. apply in_map, Hd'.
Qed.

End DiffPartition.

Lemma DiffItems_partition_witness :
  List.NoDup (map vault.Key example.scenario_desired) /\
  List.NoDup (map vault.Key example.scenario_observed) /\
  vault.DiffItems example.scenario_desired example.scenario_observed =
  (policy.asItems [example.scenario "a" "1"],
   policy.asItems [example.scenario "c" "3"],
   policy.asItems [example.scenario "b" "2"]) /\
  diff.classified example.scenario_desired example.scenario_observed
    (policy.asItems [example.scenario "a" "1"])
    (policy.asItems [example.scenario "c" "3"])
    (policy.asItems [example.scenario "b" "2"]) "b".
Proof.
  assert (HD : List.NoDup (map vault.Key example.scenario_desired)).
  { repeat constructor; simpl; intuition discriminate. }
  assert (HO : List.NoDup (map vault.Key example.scenario_observed)).
  { repeat constructor; simpl; intuition discriminate. }
  split; [exact HD|]. split; [exact HO|]. split; [reflexivity|].
  exact (DiffItems_partition example.scenario_desired example.scenario_observed
           _ _ _ "b" HD HO eq_refl).
Defined.

(** ** More on the process monad *)

Section MoreProcessFacts.
Context {W : Type}.
Variable respond : forall c : call, W -> response c * W.

Lemma always_forM_In (P : event -> Prop) {A} (xs : list A) (body : A -> M W unit) :
  (forall x, In x xs -> always P (body x)) -> always P (forM_ xs body).
Proof.
  induction xs as [|x xs IH]; simpl; intros H.
  - apply always_ret.
  - apply always_bind; [apply H; tauto|intros _; apply IH; intros; apply H; tauto].
Qed.

Lemma ensures_always (P : event -> Prop) {A} (Q : A -> Prop) (m : M W A) :
  ensures P Q m -> always P m.
Proof. intros H w. apply H. Qed.

Lemma ensures_ret (P : event -> Prop) {A} (Q : A -> Prop) (a : A) :
  Q a -> ensures P Q (ret (W:=W) a).
Proof. intros H w. split; [constructor|]. simpl. intros a' [= <-]. exact H. Qed.

Lemma ensures_bind (P : event -> Prop) {A B} (Q : A -> Prop) (R : B -> Prop)
    (m : M W A) (f : A -> M W B) :
  ensures P Q m -> (forall a, Q a -> ensures P R (f a)) -> ensures P R (bind m f).
Proof.
  intros Hm Hf w. destruct (Hm w) as [Ht Hq].
  rewrite trace_bind, out_bind.
  destruct (out (m w)) as [a|why]; [|split; [exact Ht|discriminate]].
  destruct (Hf a (Hq a eq_refl) (world (m w))) as [Ht' Hr].
  split; [apply Forall_app; split; assumption|exact Hr].
Qed.

Lemma ensures_invoke (P : event -> Prop) (c : call) :
  (forall err, P (Called c err)) -> ensures P (fun _ => True) (invoke respond c).
Proof. intros H w. split; [repeat constructor; apply H|trivial]. Qed.

Lemma ensures_foldM (P : event -> Prop) {A B} (I : B -> Prop)
    (body : B -> A -> M W B) (xs : list A) :
  (forall b x, I b -> In x xs -> ensures P I (body b x)) ->
  forall b, I b -> ensures P I (foldM body xs b).
Proof.
  induction xs as [|x xs IH]; simpl; intros H b Hb.
  - apply ensures_ret, Hb.
  - apply ensures_bind with (Q := I); [apply H; tauto|].
    intros b' Hb'. apply IH; [|exact Hb']. intros; apply H; tauto.
Qed.

Lemma always_bind_ensures (P : event -> Prop) {A B} (Q : A -> Prop)
    (m : M W A) (f : A -> M W B) :
  ensures P Q m -> (forall a, Q a -> always P (f a)) -> always P (bind m f).
Proof.
  intros Hm Hf w. destruct (Hm w) as [Ht Hq]. rewrite trace_bind.
  destruct (out (m w)) as [a|why]; [|exact Ht].
  apply Forall_app. split; [exact Ht|]. apply Hf, Hq. reflexivity.
Qed.

Lemma always_impl (P Q : event -> Prop) {A} (m : M W A) :
  (forall ev, P ev -> Q ev) -> always P m -> always Q m.
Proof. intros H Hm w. eapply Forall_impl; [apply Hm|exact H]. Qed.

(** Returning *)

Lemma returns_ret {A} (a : A) : returns (ret (W:=W) a).
Proof. intros w. exists a. reflexivity. Qed.

Lemma returns_bind {A B} (m : M W A) (f : A -> M W B) :
  returns m -> (forall a, returns (f a)) -> returns (bind m f).
Proof.
  intros Hm Hf w. rewrite out_bind. destruct (Hm w) as [a ->]. apply Hf.
Qed.

Lemma returns_invoke (c : call) : returns (invoke respond c).
Proof. intros w. eexists. reflexivity. Qed.

Lemma returns_log_Info msg fields : returns (log_Info (W:=W) msg fields).
Proof. intros w. exists tt. reflexivity. Qed.

Lemma returns_forM {A} (xs : list A) (body : A -> M W unit) :
  (forall x, In x xs -> returns (body x)) -> returns (forM_ xs body).
Proof.
  induction xs as [|x xs IH]; simpl; intros H.
  - apply returns_ret.
  - apply returns_bind; [apply H; tauto|intros _; apply IH; intros; apply H; tauto].
Qed.

Lemma returns_foldM {A B} (body : B -> A -> M W B) (xs : list A) :
  (forall b x, returns (body b x)) -> forall b, returns (foldM body xs b).
Proof.
  intros H. induction xs as [|x xs IH]; intros b; simpl.
  - apply returns_ret.
  - apply returns_bind; [apply H|intros b'; apply IH].
Qed.

Lemma returns_unit (m : M W unit) w : returns m -> out (m w) = Returned tt.
Proof. intros H. destruct (H w) as [[] E]. exact E. Qed.

(** The trace of a loop contains the trace of each of its iterations. *)
Lemma forM_In_trace {A} (xs : list A) (body : A -> M W unit) x w :
  (forall y, In y xs -> returns (body y)) -> In x xs ->
  exists w', incl (trace (body x w')) (trace (forM_ xs body w)).
Proof.
  revert w. induction xs as [|y xs IH]; simpl; intros w Hr Hin; [tauto|].
  assert (Hy : out (body y w) = Returned tt) by (apply returns_unit, Hr; tauto).
  destruct Hin as [->|Hin].
  - exists w. rewrite trace_bind, Hy. apply incl_appl, incl_refl.
  - destruct (IH (world (body y w))) as [w' Hw'];
      [intros; apply Hr; tauto|exact Hin|].
    exists w'. rewrite trace_bind, Hy. apply incl_appr, Hw'.
Qed.

(** Mutations *)

Lemma mutations_app t1 t2 : mutations (t1 ++ t2) = (mutations t1 ++ mutations t2)%list.
Proof.
  induction t1 as [|[c err|lvl msg fields] t1 IH]; simpl; [reflexivity| |exact IH].
  destruct (mutating c); simpl; rewrite IH; reflexivity.
Qed.

Lemma failures_marked_app t1 t2 :
  failures_marked t1 -> failures_marked t2 -> failures_marked (t1 ++ t2).
Proof.
  intros H1 H2. induction H1; simpl; [exact H2|constructor; assumption..].
Qed.

End MoreProcessFacts.

(** ** Tactics for traces *)

Ltac always_step :=
  match goal with
  | |- always _ (ret _) => apply always_ret
  | |- always _ panic => apply always_panic
  | |- always _ (bind _ _) => apply always_bind
  | |- always _ (forM_ _ _) => apply always_forM
  | |- always _ (foldM _ _ _) => apply always_foldM
  | |- always _ (invoke _ _) => apply always_invoke
  | |- always _ (log_Info _ _) => apply always_log_Info
  | |- always _ (log_Fatal _ _) => apply always_log_Fatal
  | |- always _ (match ?x with _ => _ end) => destruct x eqn:?
  | |- forall _, _ => intro
  end.

Ltac always_tac := repeat (always_step; simpl).

Ltac returns_step :=
  match goal with
  | |- returns (ret _) => apply returns_ret
  | |- returns (bind _ _) => apply returns_bind
  | |- returns (foldM _ _ _) => apply returns_foldM
  | |- returns (invoke ?r ?c) => exact (returns_invoke r c)
  | |- returns (log_Info _ _) => apply returns_log_Info
  | |- returns (match ?x with _ => _ end) => destruct x eqn:?
  | |- forall _, _ => intro
  end.

Ltac returns_tac := repeat (returns_step; simpl).

Section Boxed.
(** Items that box an entry of one package. *)
Lemma Forall_boxed {A} (item : A -> vault.Item) (l : list vault.Item) :
  Forall (fun i => exists x, i = item x) l -> exists xs, l = map item xs.
Proof.
  induction 1 as [|i l [x ->] _ [xs ->]].
  - exists []. reflexivity.
  - exists (x :: xs). reflexivity.
Qed.

Lemma boxed_map {A} (item : A -> vault.Item) (xs : list A) :
  Forall (fun i => exists x, i = item x) (map item xs).
Proof. apply Forall_map, Forall_forall. intros x _. exists x. reflexivity. Qed.

Lemma DiffItems_boxed {A} (item : A -> vault.Item) (ds os : list A) :
  exists cs dl us,
    vault.DiffItems (map item ds) (map item os) =
    (map item cs, map item dl, map item us).
Proof.
  destruct (DiffItems_Forall (fun i => exists x, i = item x)
              (map item ds) (map item os) (boxed_map _ _) (boxed_map _ _))
    as (Hc & Hd & Hu).
  apply Forall_boxed in Hc as [cs Hc], Hd as [dl Hd], Hu as [us Hu].
  exists cs, dl, us.
  destruct (vault.DiffItems (map item ds) (map item os)) as [[c d] u].
  simpl in *. congruence.
Qed.
End Boxed.


(** ** The three packages *)

Lemma flat_map_single {A B} (f : A -> B) (xs : list A) :
  flat_map (fun x => [f x]) xs = map f xs.
Proof. induction xs; simpl; congruence. Qed.

Lemma flat_map_guard {A B} (p : A -> bool) (f : A -> B) (xs : list A) :
  flat_map (fun x => if p x then [f x] else []) xs = map f (List.filter p xs).
Proof.
  induction xs as [|x xs IH]; simpl; [reflexivity|].
  destruct (p x); simpl; congruence.
Qed.



Section Performs.
Context {W : Type}.
Variable respond : forall c : call, W -> response c * W.

Lemma performs_ret : performs (ret (W:=W) tt) [].
Proof. intros w. split; reflexivity. Qed.

Lemma performs_seq (m1 m2 : M W unit) l1 l2 :
  performs m1 l1 -> performs m2 l2 ->
  performs (bind m1 (fun _ => m2)) (l1 ++ l2).
Proof.
  intros H1 H2 w. destruct (H1 w) as [O1 M1].
  destruct (H2 (world (m1 w))) as [O2 M2].
  rewrite out_bind, trace_bind, O1, mutations_app, M1, M2. tauto.
Qed.

Lemma performs_forM {A} (xs : list A) (body : A -> M W unit) (f : A -> list call) :
  (forall x, In x xs -> performs (body x) (f x)) ->
  performs (forM_ xs body) (flat_map f xs).
Proof.
  induction xs as [|x xs IH]; simpl; intros H.
  - apply performs_ret.
  - apply performs_seq; [apply H; tauto|apply IH; intros; apply H; tauto].
Qed.

Lemma performs_forM_map {A B} (g : A -> B) (xs : list A) (body : B -> M W unit)
    (f : A -> list call) :
  (forall x, In x xs -> performs (body (g x)) (f x)) ->
  performs (forM_ (map g xs) body) (flat_map f xs).
Proof.
  induction xs as [|x xs IH]; simpl; intros H.
  - apply performs_ret.
  - apply performs_seq; [apply H; tauto|apply IH; intros; apply H; tauto].
Qed.

Lemma performs_invoke (c : call) :
  performs (bind (invoke respond c) (fun _ => ret tt))
    (if mutating c then [c] else []).
Proof. intros w. simpl. destruct (mutating c); split; reflexivity. Qed.

Lemma performs_log msg fields : performs (log_Info (W:=W) msg fields) [].
Proof. intros w. split; reflexivity. Qed.
End Performs.

Section SecretsEngine.
Context {W : Type}.
Variable respond : forall c : call, W -> response c * W.
Variable EqualPathNames : string -> string -> bool.
Variable OptionsEqual : gmap string value -> gmap string value -> bool.
Variable Unmarshal : list Byte.byte -> decoded secretsengine.entry.
Variable InstanceAddresses : list string.

Local Abbreviation item := (secretsengine.item EqualPathNames OptionsEqual).
Local Abbreviation asItems := (secretsengine.asItems EqualPathNames OptionsEqual).
Local Abbreviation live_run := (secretsengine.live_run respond).
Local Abbreviation reconcile := (secretsengine.reconcile respond EqualPathNames OptionsEqual).
Local Abbreviation Apply := (secretsengine.Apply respond EqualPathNames OptionsEqual Unmarshal InstanceAddresses).

Lemma se_live_run_performs instance cs ds us :
  performs (live_run instance (asItems cs) (asItems ds) (asItems us))
    (map (secretsengine.enable_call instance) cs ++
     map (secretsengine.update_call instance) us ++
     map (secretsengine.disable_call instance)
       (List.filter (fun e => negb (secretsengine.isDefaultMount (secretsengine.Path e))) ds)).
Proof.
  rewrite <- (flat_map_single (secretsengine.enable_call instance)),
          <- (flat_map_single (secretsengine.update_call instance)),
          <- flat_map_guard.
  unfold secretsengine.live_run, secretsengine.asItems.
  repeat apply performs_seq; apply performs_forM_map; intros x _; simpl.
  - apply (performs_invoke respond (secretsengine.enable_call instance x)).
  - apply (performs_invoke respond (secretsengine.update_call instance x)).
  - intros w. cbn.
    destruct (secretsengine.isDefaultMount (secretsengine.Path x)); split; reflexivity.
Qed.

(** C5, secrets engines: one pass over an instance enables the creates, then
    updates the updates, then disables the deletes that are not default
    mounts. *)
Lemma se_reconcile_order dm em instance w :
  exists cs ds us,
    vault.DiffItems (asItems (default [] (dm !! instance)))
                    (asItems (default [] (em !! instance))) =
    (asItems cs, asItems ds, asItems us) /\
    out (reconcile false dm em instance w) = Returned tt /\
    mutations (trace (reconcile false dm em instance w)) =
    (map (secretsengine.enable_call instance) cs ++
     map (secretsengine.update_call instance) us ++
     map (secretsengine.disable_call instance)
       (List.filter (fun e => negb (secretsengine.isDefaultMount (secretsengine.Path e))) ds))%list.
Proof.
  destruct (DiffItems_boxed item (default [] (dm !! instance)) (default [] (em !! instance)))
    as (cs & ds & us & E).
  exists cs, ds, us. split; [exact E|].
  unfold secretsengine.reconcile. unfold secretsengine.asItems in *. rewrite E.
  apply se_live_run_performs.
Qed.




Lemma se_Apply_always (P : event -> Prop) bytes dryRun n :
  (forall lvl msg fields, P (Logged lvl msg fields)) ->
  (forall a err, P (Called (ListSecretsEngines a) err)) ->
  (forall a e err, dryRun = false -> P (Called (secretsengine.enable_call a e) err)) ->
  (forall a e err, dryRun = false -> P (Called (secretsengine.update_call a e) err)) ->
  (forall a e err, dryRun = false ->
     secretsengine.isDefaultMount (secretsengine.Path e) = false ->
     P (Called (secretsengine.disable_call a e) err)) ->
  always P (Apply bytes dryRun n).
Proof.
  intros HL HF HE HU HD.
  unfold secretsengine.Apply, secretsengine.fetch_enabled, secretsengine.reconcile,
    secretsengine.dry_run, secretsengine.live_run, secretsengine.assert_entry.
  always_tac; auto.
  apply HD; [reflexivity|]. apply negb_true_iff. assumption.
Qed.

Lemma se_group_by_instance_None entries a :
  (forall e, In e entries -> instance.Address (secretsengine.Instance e) <> a) ->
  secretsengine.group_by_instance entries !! a = None.
Proof.
  unfold secretsengine.group_by_instance.
  assert (G : forall (m : gmap string (list secretsengine.entry)),
             (forall e, In e entries -> instance.Address (secretsengine.Instance e) <> a) ->
             m !! a = None ->
             fold_left
               (fun (m : gmap string (list secretsengine.entry)) e =>
                  let a := instance.Address (secretsengine.Instance e) in
                  <[a := (default [] (m !! a) ++ [e])%list]> m) entries m !! a = None).
  { induction entries as [|e entries IH]; simpl; intros m H Hm; [exact Hm|].
    apply IH; [intros; apply H; tauto|].
    rewrite lookup_insert_ne; [exact Hm|apply H; tauto]. }
  intros H. apply G; [exact H|apply lookup_empty].
Qed.

Lemma se_fetch_enabled_ensures entries a :
  (forall e, In e entries -> instance.Address (secretsengine.Instance e) <> a) ->
  ensures (fun ev => touches a ev = false)
    (fun m : gmap string (list (string * api.MountOutput)) => m !! a = None)
    (secretsengine.fetch_enabled respond entries).
Proof.
  intros H. unfold secretsengine.fetch_enabled.
  apply ensures_foldM; [|apply lookup_empty].
  intros m e Hm He. simpl.
  destruct (m !! instance.Address (secretsengine.Instance e)) eqn:E.
  - apply ensures_ret, Hm.
  - eapply ensures_bind.
    + apply (ensures_invoke respond _
               (ListSecretsEngines (instance.Address (secretsengine.Instance e)))).
      intros err. simpl. apply bool_decide_eq_false. intros [= E']. exact (H e He E').
    + intros r _. apply ensures_ret. rewrite lookup_insert_ne; [exact Hm|apply H, He].
Qed.

Lemma se_reconcile_touches dryRun dm em inst a :
  a <> inst ->
  always (fun ev => touches a ev = false) (reconcile dryRun dm em inst).
Proof.
  intros Hne.
  assert (T : bool_decide (Some inst = Some a) = false).
  { apply bool_decide_eq_false. congruence. }
  unfold secretsengine.reconcile, secretsengine.dry_run, secretsengine.live_run,
    secretsengine.assert_entry.
  always_tac; try reflexivity; exact T.
Qed.

Lemma se_reconcile_idle dryRun (dm em : gmap string (list secretsengine.entry)) a :
  dm !! a = None -> em !! a = None ->
  always (fun _ => False) (reconcile dryRun dm em a).
Proof.
  intros Hd He w. unfold secretsengine.reconcile. rewrite Hd, He. simpl.
  destruct dryRun; constructor.
Qed.

Lemma se_untouched entries bytes dryRun n a :
  Unmarshal bytes = Decoded entries ->
  (forall e, In e entries -> instance.Address (secretsengine.Instance e) <> a) ->
  always (fun ev => touches a ev = false) (Apply bytes dryRun n).
Proof.
  intros HU H. unfold secretsengine.Apply. rewrite HU.
  apply always_bind_ensures with (Q := fun es => es = entries).
  { apply ensures_ret. reflexivity. }
  intros ? ->.
  apply always_bind_ensures
    with (Q := fun m : gmap string (list (string * api.MountOutput)) => m !! a = None).
  { apply se_fetch_enabled_ensures, H. }
  intros m Hm. apply always_forM. intros inst.
  destruct (String.string_dec a inst) as [<-|Hne].
  - apply always_impl with (P := fun _ => False); [tauto|].
    apply se_reconcile_idle.
    + apply se_group_by_instance_None, H.
    + rewrite lookup_fmap, Hm. reflexivity.
  - apply se_reconcile_touches, Hne.
Qed.

End SecretsEngine.

Section Policy.
Context {W : Type}.
Variable respond : forall c : call, W -> response c * W.
Variable Unmarshal : list Byte.byte -> decoded policy.entry.
Variable InstanceAddresses : list string.
Variable visit : gmap string (list string) -> list (string * list string).
Variable schedule : list string -> list string.
Variable completion : list policy.entry -> list policy.entry.

Local Abbreviation live_run := (policy.live_run respond).
Local Abbreviation reconcile := (policy.reconcile respond).
Local Abbreviation Apply :=
  (policy.Apply respond Unmarshal InstanceAddresses visit schedule completion).

Lemma po_live_run_performs instance cs ds :
  performs (live_run instance (policy.asItems cs) (policy.asItems ds))
    (map (policy.put_call instance) cs ++
     map (policy.delete_call instance)
       (List.filter (fun e => negb (policy.isDefaultPolicy (policy.Name e))) ds)).
Proof.
  rewrite <- (flat_map_single (policy.put_call instance)), <- flat_map_guard.
  unfold policy.live_run, policy.asItems.
  apply performs_seq; apply performs_forM_map; intros x _; simpl.
  - apply (performs_invoke respond (policy.put_call instance x)).
  - intros w. cbn.
    destruct (policy.isDefaultPolicy (policy.Name x)); split; reflexivity.
Qed.

(** C5, policies: one pass over an instance puts the creates, then deletes
    the deletes that are not default policies; the updates are dropped. *)
Lemma po_reconcile_order dm em instance w :
  exists cs ds us,
    vault.DiffItems (policy.asItems (default [] (dm !! instance)))
                    (policy.asItems (default [] (em !! instance))) =
    (policy.asItems cs, policy.asItems ds, policy.asItems us) /\
    out (reconcile false dm em instance w) = Returned tt /\
    mutations (trace (reconcile false dm em instance w)) =
    (map (policy.put_call instance) cs ++
     map (policy.delete_call instance)
       (List.filter (fun e => negb (policy.isDefaultPolicy (policy.Name e))) ds))%list.
Proof.
  destruct (DiffItems_boxed policy.item (default [] (dm !! instance))
              (default [] (em !! instance))) as (cs & ds & us & E).
  exists cs, ds, us. split; [exact E|].
  unfold policy.reconcile. unfold policy.asItems in *. rewrite E.
  apply po_live_run_performs.
Qed.




Lemma po_Apply_always (P : event -> Prop) bytes dryRun n :
  (forall lvl msg fields, P (Logged lvl msg fields)) ->
  (forall a err, P (Called (ListVaultPolicies a) err)) ->
  (forall a name err, P (Called (GetVaultPolicy a name) err)) ->
  (forall a e err, dryRun = false -> P (Called (policy.put_call a e) err)) ->
  (forall a e err, dryRun = false ->
     policy.isDefaultPolicy (policy.Name e) = false ->
     P (Called (policy.delete_call a e) err)) ->
  always P (Apply bytes dryRun n).
Proof.
  intros HL HF HG HE HD.
  unfold policy.Apply, policy.fetch_names, policy.fetch_existing,
    policy.fetch_policies, policy.reconcile,
    policy.dry_run, policy.live_run, policy.assert_entry.
  always_tac; auto.
Qed.

Lemma po_group_by_instance_None entries a :
  (forall e, In e entries -> instance.Address (policy.Instance e) <> a) ->
  policy.group_by_instance entries !! a = None.
Proof.
  unfold policy.group_by_instance.
  assert (G : forall (m : gmap string (list policy.entry)),
             (forall e, In e entries -> instance.Address (policy.Instance e) <> a) ->
             m !! a = None ->
             fold_left
               (fun (m : gmap string (list policy.entry)) e =>
                  let a := instance.Address (policy.Instance e) in
                  <[a := (default [] (m !! a) ++ [e])%list]> m) entries m !! a = None).
  { induction entries as [|e entries IH]; simpl; intros m H Hm; [exact Hm|].
    apply IH; [intros; apply H; tauto|].
    rewrite lookup_insert_ne; [exact Hm|apply H; tauto]. }
  intros H. apply G; [exact H|apply lookup_empty].
Qed.

Lemma po_fetch_names_ensures entries a :
  (forall e, In e entries -> instance.Address (policy.Instance e) <> a) ->
  ensures (fun ev => touches a ev = false)
    (fun m : gmap string (list string) => m !! a = None)
    (policy.fetch_names respond entries).
Proof.
  intros H. unfold policy.fetch_names.
  apply ensures_foldM; [|apply lookup_empty].
  intros m e Hm He. simpl.
  destruct (m !! instance.Address (policy.Instance e)) eqn:E.
  - apply ensures_ret, Hm.
  - eapply ensures_bind.
    + apply (ensures_invoke respond _
               (ListVaultPolicies (instance.Address (policy.Instance e)))).
      intros err. simpl. apply bool_decide_eq_false. intros [= E']. exact (H e He E').
    + intros r _. apply ensures_ret. rewrite lookup_insert_ne; [exact Hm|apply H, He].
Qed.

Lemma po_fetch_policies_ensures inst names a (m : gmap string (list policy.entry)) :
  inst <> a -> m !! a = None ->
  ensures (fun ev => touches a ev = false)
    (fun m : gmap string (list policy.entry) => m !! a = None)
    (policy.fetch_policies respond schedule completion inst names m).
Proof.
  intros Hne Hm. unfold policy.fetch_policies.
  apply ensures_bind with (Q := fun _ => True).
  - apply ensures_foldM; [|exact I].
    intros got name _ _. eapply ensures_bind.
    + apply (ensures_invoke respond _ (GetVaultPolicy inst name)).
      intros err. simpl. apply bool_decide_eq_false. congruence.
    + intros r _. apply ensures_ret. exact I.
  - intros got _. apply ensures_ret.
    generalize (completion got). intros l. revert m Hm.
    induction l as [|ent l IH]; intros m Hm; simpl; [exact Hm|].
    apply IH. rewrite lookup_insert_ne; assumption.
Qed.

Lemma po_fetch_existing_ensures (names : gmap string (list string)) a :
  (forall k v, In (k, v) (visit names) -> names !! k = Some v) ->
  names !! a = None ->
  ensures (fun ev => touches a ev = false)
    (fun m : gmap string (list policy.entry) => m !! a = None)
    (policy.fetch_existing respond visit schedule completion names).
Proof.
  intros Hv Hn. unfold policy.fetch_existing.
  apply ensures_foldM; [|apply lookup_empty].
  intros m [k v] Hm Hin. simpl.
  destruct v as [|name v]; [apply ensures_ret, Hm|].
  apply po_fetch_policies_ensures; [|exact Hm].
  intros ->. apply Hv in Hin. congruence.
Qed.

Lemma po_reconcile_touches dryRun dm em inst a :
  a <> inst ->
  always (fun ev => touches a ev = false) (reconcile dryRun dm em inst).
Proof.
  intros Hne.
  assert (T : bool_decide (Some inst = Some a) = false).
  { apply bool_decide_eq_false. congruence. }
  unfold policy.reconcile, policy.dry_run, policy.live_run, policy.assert_entry.
  always_tac; try reflexivity; exact T.
Qed.

Lemma po_reconcile_idle dryRun (dm em : gmap string (list policy.entry)) a :
  dm !! a = None -> em !! a = None ->
  always (fun _ => False) (reconcile dryRun dm em a).
Proof.
  intros Hd He w. unfold policy.reconcile. rewrite Hd, He. simpl.
  destruct dryRun; constructor.
Qed.

Lemma po_untouched entries bytes dryRun n a :
  (forall names k v, In (k, v) (visit names) -> names !! k = Some v) ->
  Unmarshal bytes = Decoded entries ->
  (forall e, In e entries -> instance.Address (policy.Instance e) <> a) ->
  always (fun ev => touches a ev = false) (Apply bytes dryRun n).
Proof.
  intros Hv HU H. unfold policy.Apply. rewrite HU.
  apply always_bind_ensures with (Q := fun es => es = entries).
  { apply ensures_ret. reflexivity. }
  intros ? ->.
  apply always_bind_ensures
    with (Q := fun m : gmap string (list string) => m !! a = None).
  { apply po_fetch_names_ensures, H. }
  intros names Hn.
  apply always_bind_ensures
    with (Q := fun m : gmap string (list policy.entry) => m !! a = None).
  { apply po_fetch_existing_ensures; [apply Hv|exact Hn]. }
  intros m Hm. apply always_forM. intros inst.
  destruct (String.string_dec a inst) as [<-|Hne].
  - apply always_impl with (P := fun _ => False); [tauto|].
    apply po_reconcile_idle; [|exact Hm].
    apply po_group_by_instance_None, H.
  - apply po_reconcile_touches, Hne.
Qed.

End Policy.

Section Audit.
Context {W : Type}.
Variable respond : forall c : call, W -> response c * W.
Variable EqualPathNames : string -> string -> bool.
Variable OptionsEqual : gmap string value -> gmap string value -> bool.
Variable Unmarshal : list Byte.byte -> decoded audit.entry.
Variable InstanceAddresses : list string.

Local Abbreviation item := (audit.item EqualPathNames OptionsEqual).
Local Abbreviation asItems := (audit.asItems EqualPathNames OptionsEqual).
Local Abbreviation live_run := (audit.live_run respond).
Local Abbreviation reconcile := (audit.reconcile respond EqualPathNames OptionsEqual).
Local Abbreviation Apply :=
  (audit.Apply respond EqualPathNames OptionsEqual Unmarshal InstanceAddresses).

Lemma au_live_run_performs instance cs ds :
  performs (live_run instance (asItems cs) (asItems ds))
    (map (audit.enable_call instance) cs ++ map (audit.disable_call instance) ds).
Proof.
  rewrite <- (flat_map_single (audit.enable_call instance)),
          <- (flat_map_single (audit.disable_call instance)).
  unfold audit.live_run, audit.asItems.
  apply performs_seq; apply performs_forM_map; intros x _ w; cbn.
  - destruct (respond (audit.enable_call instance x) w) as [[err|] w']; split; reflexivity.
  - destruct (respond (audit.disable_call instance x) w) as [[err|] w']; split; reflexivity.
Qed.

Lemma au_live_run_marked instance cs ds w :
  failures_marked (trace (live_run instance (asItems cs) (asItems ds) w)).
Proof.
  assert (L : forall (body : vault.Item -> M W unit) xs w,
             (forall x w, out (body (item x) w) = Returned tt /\
                          failures_marked (trace (body (item x) w))) ->
             out (forM_ (map item xs) body w) = Returned tt /\
             failures_marked (trace (forM_ (map item xs) body w))).
  { intros body xs. induction xs as [|x xs IH]; intros w0 H; simpl.
    - split; [reflexivity|constructor].
    - destruct (H x w0) as [Ho Hm]. rewrite out_bind, trace_bind, Ho.
      destruct (IH (world (body (item x) w0)) H) as [Ho' Hm'].
      split; [exact Ho'|]. apply failures_marked_app; assumption. }
  unfold audit.live_run, audit.asItems. rewrite trace_bind.
  match goal with
  | |- context [forM_ (map item cs) ?b] =>
      destruct (L b cs w) as [O1 M1]
  end.
  { intros x w0. cbn.
    destruct (respond (audit.enable_call instance x) w0) as [[err|] w']; cbn;
      split; try reflexivity; repeat constructor. }
  rewrite O1. apply failures_marked_app; [exact M1|].
  apply L. intros x w0. cbn.
  destruct (respond (audit.disable_call instance x) w0) as [[err|] w']; cbn;
    split; try reflexivity; repeat constructor.
Qed.

Lemma au_dry_run_returns instance cs ds :
  returns (audit.dry_run (W:=W) instance cs ds).
Proof.
  unfold audit.dry_run.
  apply returns_bind; [|intros _]; apply returns_forM; intros x _; returns_tac.
Qed.

(** C5, audit devices: after a list call without error, one pass over an
    instance enables the creates, then disables all the deletes; the updates
    are dropped. *)
Lemma au_reconcile_order dm instance w :
  snd (fst (respond (ListAuditDevices instance) w)) = None ->
  exists cs ds us,
    vault.DiffItems (asItems (default [] (dm !! instance)))
      (asItems (audit.existing_audits
                  (fst (fst (respond (ListAuditDevices instance) w))))) =
    (asItems cs, asItems ds, asItems us) /\
    out (reconcile false dm instance w) = Returned tt /\
    mutations (trace (reconcile false dm instance w)) =
    (map (audit.enable_call instance) cs ++
     map (audit.disable_call instance) ds)%list.
Proof.
  intros Hok.
  destruct (DiffItems_boxed item (default [] (dm !! instance))
              (audit.existing_audits
                 (fst (fst (respond (ListAuditDevices instance) w)))))
    as (cs & ds & us & E).
  exists cs, ds, us. split; [exact E|].
  unfold audit.reconcile. rewrite out_bind, trace_bind. cbn [invoke out world trace].
  rewrite Hok. unfold audit.asItems in *. rewrite E.
  destruct (au_live_run_performs instance cs ds
              (snd (respond (ListAuditDevices instance) w))) as [O M'].
  unfold audit.asItems in *.
  split; [exact O|]. rewrite mutations_app. simpl. exact M'.
Qed.

(** C4, audit devices: a list call that returns an error is logged, the
    instance is added to the invalid ones, and the pass over the instance
    ends there. *)
Lemma au_reconcile_fetch_failure dryRun dm instance w err :
  snd (fst (respond (ListAuditDevices instance) w)) = Some err ->
  out (reconcile dryRun dm instance w) = Returned tt /\
  trace (reconcile dryRun dm instance w) =
  [Called (ListAuditDevices instance) (Some err);
   Logged InfoLevel "[Vault Identity] failed to list audit device"
     [("error", err); ("instance", instance)];
   Called (AddInvalid instance) None].
Proof.
  intros Herr. unfold audit.reconcile.
  rewrite out_bind, trace_bind. cbn [invoke out world trace returned_error].
  rewrite !Herr. split; reflexivity.
Qed.

Lemma au_reconcile_returns dryRun dm instance :
  returns (reconcile dryRun dm instance).
Proof.
  intros w. unfold audit.reconcile. rewrite out_bind. cbn [invoke out world].
  destruct (snd (fst (respond (ListAuditDevices instance) w))) as [err|].
  - exists tt. reflexivity.
  - destruct (DiffItems_boxed item (default [] (dm !! instance))
                (audit.existing_audits
                   (fst (fst (respond (ListAuditDevices instance) w)))))
      as (cs & ds & us & E).
    unfold audit.asItems in *. rewrite E. destruct dryRun.
    + apply au_dry_run_returns.
    + exists tt. apply au_live_run_performs.
Qed.

Lemma au_reconcile_marked dryRun dm instance w :
  failures_marked (trace (reconcile dryRun dm instance w)).
Proof.
  unfold audit.reconcile. rewrite trace_bind.
  cbn [invoke out world trace returned_error].
  destruct (snd (fst (respond (ListAuditDevices instance) w))) as [err|] eqn:Herr.
  - cbn. repeat constructor.
  - apply (failures_marked_app [_]); [repeat constructor|].
    destruct (DiffItems_boxed item (default [] (dm !! instance))
                (audit.existing_audits
                   (fst (fst (respond (ListAuditDevices instance) w)))))
      as (cs & ds & us & E).
    unfold audit.asItems in *. rewrite E. destruct dryRun.
    + unfold audit.dry_run. rewrite trace_bind.
      assert (L : forall (xs : list vault.Item) msg w0,
                 out (forM_ xs (fun i : vault.Item =>
                   log_Info (W:=W) msg [("path", vault.Key i); ("instance", instance)]) w0) =
                 Returned tt /\
                 failures_marked (trace (forM_ xs (fun i : vault.Item =>
                   log_Info (W:=W) msg [("path", vault.Key i); ("instance", instance)]) w0))).
      { intros xs msg. induction xs as [|x xs IH]; intros w0; simpl.
        - split; [reflexivity|constructor].
        - destruct (IH w0) as [O1 M1]. rewrite O1. split; [reflexivity|].
          constructor. exact M1. }
      match goal with
      | |- context [match out ?r with _ => _ end] =>
          replace (out r) with (Returned (A:=unit) tt) by (symmetry; apply L)
      end.
      apply failures_marked_app; apply L.
    + apply au_live_run_marked.
Qed.


Lemma au_Apply_always (P : event -> Prop) bytes n :
  (forall lvl msg fields, P (Logged lvl msg fields)) ->
  (forall a err, P (Called (ListAuditDevices a) err)) ->
  (forall a err, P (Called (AddInvalid a) err)) ->
  (forall err, P (Called RemoveInstanceFromReconciliation err)) ->
  always P (Apply bytes true n).
Proof.
  intros HL HF HA HR.
  unfold audit.Apply, audit.reconcile, audit.dry_run.
  always_tac; auto.
Qed.

(** C4, audit devices: every call that returned an error is followed by a
    log entry and by [AddInvalid] of its instance. *)
Lemma au_Apply_marked bytes dryRun n w :
  failures_marked (trace (Apply bytes dryRun n w)).
Proof.
  unfold audit.Apply. rewrite trace_bind.
  destruct (Unmarshal bytes) as [entries|err]; cbn [ret log_Fatal out world trace].
  2:{ repeat constructor. }
  simpl. rewrite trace_bind.
  assert (L : forall xs dm w0,
             failures_marked (trace (forM_ xs (reconcile dryRun dm) w0))).
  { intros xs dm. induction xs as [|x xs IH]; intros w0; simpl; [constructor|].
    rewrite trace_bind.
    rewrite (returns_unit _ _ (au_reconcile_returns dryRun dm x)).
    apply failures_marked_app; [apply au_reconcile_marked|apply IH]. }
  destruct (out _); [|apply L].
  apply failures_marked_app; [apply L|]. cbn. repeat constructor.
Qed.

(** C4, audit devices: after a decoded document, the run lists the audit
    devices of every configured instance, whatever failed before. *)
Lemma au_Apply_visits_all entries bytes dryRun n w inst :
  Unmarshal bytes = Decoded entries ->
  In inst InstanceAddresses ->
  exists err,
    In (Called (ListAuditDevices inst) err) (trace (Apply bytes dryRun n w)).
Proof.
  intros HU Hin. unfold audit.Apply. rewrite HU, trace_bind. cbn [ret out world trace].
  simpl. rewrite trace_bind.
  destruct (forM_In_trace InstanceAddresses
              (reconcile dryRun (audit.group_by_instance entries)) inst w)
    as [w' Hw']; [intros; apply au_reconcile_returns|exact Hin|].
  exists (snd (fst (respond (ListAuditDevices inst) w'))).
  assert (H0 : In (Called (ListAuditDevices inst)
                     (snd (fst (respond (ListAuditDevices inst) w'))))
                  (trace (reconcile dryRun (audit.group_by_instance entries) inst w'))).
  { unfold audit.reconcile. rewrite trace_bind. cbn [invoke out world trace].
    apply in_or_app. left. left. reflexivity. }
  apply Hw' in H0.
  destruct (out _); [apply in_or_app; left|]; exact H0.
Qed.

End Audit.

(** ** The claims about [Apply] *)

(** C2. Called with [dryRun = true], the [Apply] of each package changes no
    instance: no event of its trace is an enable, put, update, disable or
    delete call; it lists and gets, logs, and calls the registry of invalid
    instances. *)
Theorem dry_run_mutates_nothing {W : Type}
    (respond : forall c : call, W -> response c * W)
    (EqualPathNames : string -> string -> bool)
    (OptionsEqual : gmap string value -> gmap string value -> bool)
    (Unmarshal_engines : list Byte.byte -> decoded secretsengine.entry)
    (Unmarshal_policies : list Byte.byte -> decoded policy.entry)
    (Unmarshal_audits : list Byte.byte -> decoded audit.entry)
    (InstanceAddresses : list string)
    (visit : gmap string (list string) -> list (string * list string))
    (schedule : list string -> list string)
    (completion : list policy.entry -> list policy.entry)
    (entriesBytes : list Byte.byte) (threadPoolSize : Z) (w : W) :
  Forall (fun ev => mutates ev = false)
    (trace (secretsengine.Apply respond EqualPathNames OptionsEqual
              Unmarshal_engines InstanceAddresses
              entriesBytes true threadPoolSize w)) /\
  Forall (fun ev => mutates ev = false)
    (trace (policy.Apply respond Unmarshal_policies InstanceAddresses
              visit schedule completion entriesBytes true threadPoolSize w)) /\
  Forall (fun ev => mutates ev = false)
    (trace (audit.Apply respond EqualPathNames OptionsEqual
              Unmarshal_audits InstanceAddresses
              entriesBytes true threadPoolSize w)).
Proof.
  split; [|split].
  - apply se_Apply_always; intros; (reflexivity || discriminate).
  - apply po_Apply_always; intros; (reflexivity || discriminate).
  - apply au_Apply_always; intros; reflexivity.
Qed.

(** The audit package has no class of devices that it spares.  On the
    instance [x] with the device [file/] and an empty document, a live
    [Apply] disables [file/]; and whatever non-empty class of paths is taken,
    a live [Apply] disables an enabled device of that class. *)
Lemma audit_spares_no_device :
  In (Called (DisableAuditDevice "x" "file/") None)
     (trace (example.audit_Apply [] ["x"] false)) /\
  ~ exists builtin : string -> bool,
      (exists path, builtin path = true) /\
      forall (devices : list (string * api.Audit)) (path : string),
        builtin path = true ->
        ~ In (Called (DisableAuditDevice "x" path) None)
            (trace (audit.Apply (example.respond devices)
                      example.EqualPathNames example.OptionsEqual
                      (fun _ => Decoded []) ["x"] [] false 2 tt)).
Proof.
  split.
  - vm_compute. right. left. reflexivity.
  - intros (builtin & (path & Hb) & H).
    apply (H [(path, example.file_device path)] path Hb).
    cbn. right. left. reflexivity.
Qed.

(** C1. In live mode no delete is issued for a default or protected object:
    the secrets-engine package issues no disable for a path with a default
    mount prefix ([cubbyhole/], [identity/], [secret/], [sys/]), the policy
    package issues no delete for [root] or [default], and the audit package
    issues no disable for a built-in audit device.  The code names no
    built-in audit device, so the last clause has no instance. *)
Theorem default_objects_not_deleted {W : Type}
    (respond : forall c : call, W -> response c * W)
    (EqualPathNames : string -> string -> bool)
    (OptionsEqual : gmap string value -> gmap string value -> bool)
    (Unmarshal_engines : list Byte.byte -> decoded secretsengine.entry)
    (Unmarshal_policies : list Byte.byte -> decoded policy.entry)
    (Unmarshal_audits : list Byte.byte -> decoded audit.entry)
    (InstanceAddresses : list string)
    (visit : gmap string (list string) -> list (string * list string))
    (schedule : list string -> list string)
    (completion : list policy.entry -> list policy.entry)
    (entriesBytes : list Byte.byte) (threadPoolSize : Z) (w : W)
    (instance key : string) (err : option error) :
  (secretsengine.isDefaultMount key = true ->
   ~ In (Called (DisableSecretsEngine instance key) err)
       (trace (secretsengine.Apply respond EqualPathNames OptionsEqual
                 Unmarshal_engines InstanceAddresses
                 entriesBytes false threadPoolSize w))) /\
  (policy.isDefaultPolicy key = true ->
   ~ In (Called (DeleteVaultPolicy instance key) err)
       (trace (policy.Apply respond Unmarshal_policies InstanceAddresses
                 visit schedule completion entriesBytes false threadPoolSize w))) /\
  (isBuiltinAuditDevice key = true ->
   ~ In (Called (DisableAuditDevice instance key) err)
       (trace (audit.Apply respond EqualPathNames OptionsEqual
                 Unmarshal_audits InstanceAddresses
                 entriesBytes false threadPoolSize w))).
Proof.
  split; [|split].
  - intros Hdef Hin.
    pose proof (se_Apply_always respond EqualPathNames OptionsEqual
                  Unmarshal_engines InstanceAddresses
                  (fun ev => forall a p e,
                     ev = Called (DisableSecretsEngine a p) e ->
                     secretsengine.isDefaultMount p = false)
                  entriesBytes false threadPoolSize) as H.
    assert (HA : Forall (fun ev => forall a p e,
                     ev = Called (DisableSecretsEngine a p) e ->
                     secretsengine.isDefaultMount p = false)
                   (trace (secretsengine.Apply respond EqualPathNames OptionsEqual
                             Unmarshal_engines InstanceAddresses
                             entriesBytes false threadPoolSize w))).
    { apply H; try (intros; discriminate).
      intros a e e0 _ Hnd a' p e' [= _ <- _]. exact Hnd. }
    rewrite List.Forall_forall in HA.
    specialize (HA _ Hin instance key err eq_refl). congruence.
  - intros Hdef Hin.
    assert (HA : Forall (fun ev => forall a p e,
                     ev = Called (DeleteVaultPolicy a p) e ->
                     policy.isDefaultPolicy p = false)
                   (trace (policy.Apply respond Unmarshal_policies InstanceAddresses
                             visit schedule completion entriesBytes false threadPoolSize w))).
    { apply po_Apply_always; try (intros; discriminate).
      intros a e e0 _ Hnd a' p e' [= _ <- _]. exact Hnd. }
    rewrite List.Forall_forall in HA.
    specialize (HA _ Hin instance key err eq_refl). congruence.
  - unfold isBuiltinAuditDevice. discriminate.
Qed.

Lemma default_objects_not_deleted_witness :
  (secretsengine.isDefaultMount "sys/" = true /\
   ~ In (Called (DisableSecretsEngine "x" "sys/") None)
       (trace (example.secretsengine_Apply false))) /\
  (policy.isDefaultPolicy "root" = true /\
   ~ In (Called (DeleteVaultPolicy "x" "root") None)
       (trace (example.policy_Apply false))).
Proof.
  split.
  - split; [reflexivity|].
    apply (proj1 (default_objects_not_deleted
                    (example.respond example.devices)
                    example.EqualPathNames example.OptionsEqual
                    (fun _ => Decoded example.engines)
                    (fun _ => Decoded example.policies)
                    (fun _ => Decoded example.audits)
                    example.InstanceAddresses
                    example.visit example.schedule example.completion
                    [] 2 tt "x" "sys/" None)).
    reflexivity.
  - split; [reflexivity|].
    apply (proj1 (proj2 (default_objects_not_deleted
                    (example.respond example.devices)
                    example.EqualPathNames example.OptionsEqual
                    (fun _ => Decoded example.engines)
                    (fun _ => Decoded example.policies)
                    (fun _ => Decoded example.audits)
                    example.InstanceAddresses
                    example.visit example.schedule example.completion
                    [] 2 tt "x" "root" None))).
    reflexivity.
Defined.



(** C10. An instance address that no entry of the decoded document has is
    left alone by the secrets-engine and the policy package: no call of the
    run, be it a list, a get, a create, an update or a delete, is made
    against it.  For the policy package the visit of the map of policy names
    yields bindings of that map. *)
Theorem untouched_without_desired_entries {W : Type}
    (respond : forall c : call, W -> response c * W)
    (EqualPathNames : string -> string -> bool)
    (OptionsEqual : gmap string value -> gmap string value -> bool)
    (Unmarshal_engines : list Byte.byte -> decoded secretsengine.entry)
    (Unmarshal_policies : list Byte.byte -> decoded policy.entry)
    (InstanceAddresses : list string)
    (visit : gmap string (list string) -> list (string * list string))
    (schedule : list string -> list string)
    (completion : list policy.entry -> list policy.entry)
    (entriesBytes : list Byte.byte) (dryRun : bool) (threadPoolSize : Z)
    (w : W) (address : string) :
  (forall entries,
     Unmarshal_engines entriesBytes = Decoded entries ->
     (forall e, In e entries ->
        instance.Address (secretsengine.Instance e) <> address) ->
     Forall (fun ev => touches address ev = false)
       (trace (secretsengine.Apply respond EqualPathNames OptionsEqual
                 Unmarshal_engines InstanceAddresses
                 entriesBytes dryRun threadPoolSize w))) /\
  (forall entries,
     (forall names k v, In (k, v) (visit names) -> names !! k = Some v) ->
     Unmarshal_policies entriesBytes = Decoded entries ->
     (forall e, In e entries ->
        instance.Address (policy.Instance e) <> address) ->
     Forall (fun ev => touches address ev = false)
       (trace (policy.Apply respond Unmarshal_policies InstanceAddresses
                 visit schedule completion entriesBytes dryRun threadPoolSize w))).
Proof.
  split.
  - intros entries HU H. apply (se_untouched _ _ _ _ _ entries); assumption.
  - intros entries Hv HU H. apply (po_untouched _ _ _ _ _ _ entries); assumption.
Qed.

Lemma untouched_without_desired_entries_witness :
  Forall (fun ev => touches "y" ev = false)
    (trace (example.secretsengine_Apply false)) /\
  Forall (fun ev => touches "y" ev = false)
    (trace (example.policy_Apply false)).
Proof.
  pose proof (untouched_without_desired_entries
                (example.respond example.devices)
                example.EqualPathNames example.OptionsEqual
                (fun _ => Decoded example.engines)
                (fun _ => Decoded example.policies)
                example.InstanceAddresses example.visit example.schedule example.completion
                [] false 2 tt "y") as [HE HP].
  split.
  - apply (HE example.engines); [reflexivity|].
    intros e [<-|[]]. discriminate.
  - apply (HP example.policies); [|reflexivity|].
    + intros names k v Hin. apply elem_of_map_to_list, list_elem_of_In, Hin.
    + intros e [<-|[<-|[]]]; discriminate.
Defined.

(** C5, as the code has it.  In live mode one pass over an instance applies
    the outputs [cs], [ds], [us] of the diff (creates, deletes, updates) in
    this order: the secrets-engine package enables every create, then updates
    every update, then disables the deletes that are not default mounts; the
    policy package puts every create, then deletes the deletes that are not
    default policies; the audit package, after a list call without error,
    enables every create, then disables every delete.  The policy and the
    audit package issue no call for the updates. *)
Theorem live_order_of_operations {W : Type}
    (respond : forall c : call, W -> response c * W)
    (EqualPathNames : string -> string -> bool)
    (OptionsEqual : gmap string value -> gmap string value -> bool)
    (instance : string) (w : W) :
  (forall desired existing : gmap string (list secretsengine.entry),
   exists cs ds us,
     vault.DiffItems
       (secretsengine.asItems EqualPathNames OptionsEqual
          (default [] (desired !! instance)))
       (secretsengine.asItems EqualPathNames OptionsEqual
          (default [] (existing !! instance))) =
     (secretsengine.asItems EqualPathNames OptionsEqual cs,
      secretsengine.asItems EqualPathNames OptionsEqual ds,
      secretsengine.asItems EqualPathNames OptionsEqual us) /\
     mutations
       (trace (secretsengine.reconcile respond EqualPathNames OptionsEqual
                 false desired existing instance w)) =
     (map (secretsengine.enable_call instance) cs ++
      map (secretsengine.update_call instance) us ++
      map (secretsengine.disable_call instance)
        (List.filter
           (fun e => negb (secretsengine.isDefaultMount (secretsengine.Path e)))
           ds))%list) /\
  (forall desired existing : gmap string (list policy.entry),
   exists cs ds us,
     vault.DiffItems
       (policy.asItems (default [] (desired !! instance)))
       (policy.asItems (default [] (existing !! instance))) =
     (policy.asItems cs, policy.asItems ds, policy.asItems us) /\
     mutations (trace (policy.reconcile respond false desired existing instance w)) =
     (map (policy.put_call instance) cs ++
      map (policy.delete_call instance)
        (List.filter
           (fun e => negb (policy.isDefaultPolicy (policy.Name e))) ds))%list) /\
  (forall desired : gmap string (list audit.entry),
   snd (fst (respond (ListAuditDevices instance) w)) = None ->
   exists cs ds us,
     vault.DiffItems
       (audit.asItems EqualPathNames OptionsEqual
          (default [] (desired !! instance)))
       (audit.asItems EqualPathNames OptionsEqual
          (audit.existing_audits
             (fst (fst (respond (ListAuditDevices instance) w))))) =
     (audit.asItems EqualPathNames OptionsEqual cs,
      audit.asItems EqualPathNames OptionsEqual ds,
      audit.asItems EqualPathNames OptionsEqual us) /\
     mutations
       (trace (audit.reconcile respond EqualPathNames OptionsEqual
                 false desired instance w)) =
     (map (audit.enable_call instance) cs ++
      map (audit.disable_call instance) ds)%list).
Proof.
  split; [|split].
  - intros dm em.
    destruct (se_reconcile_order respond EqualPathNames OptionsEqual dm em instance w)
      as (cs & ds & us & E & _ & HM).
    exists cs, ds, us. split; assumption.
  - intros dm em.
    destruct (po_reconcile_order respond dm em instance w)
      as (cs & ds & us & E & _ & HM).
    exists cs, ds, us. split; assumption.
  - intros dm Hok.
    destruct (au_reconcile_order respond EqualPathNames OptionsEqual dm instance w Hok)
      as (cs & ds & us & E & _ & HM).
    exists cs, ds, us. split; assumption.
Qed.

Lemma live_order_of_operations_witness :
  snd (fst (example.respond example.devices (ListAuditDevices "x") tt)) = None /\
  exists cs ds us,
    vault.DiffItems
      (audit.asItems example.EqualPathNames example.OptionsEqual
         (default [] (audit.group_by_instance example.audits !! "x")))
      (audit.asItems example.EqualPathNames example.OptionsEqual
         (audit.existing_audits
            (fst (fst (example.respond example.devices (ListAuditDevices "x") tt))))) =
    (audit.asItems example.EqualPathNames example.OptionsEqual cs,
     audit.asItems example.EqualPathNames example.OptionsEqual ds,
     audit.asItems example.EqualPathNames example.OptionsEqual us) /\
    mutations
      (trace (audit.reconcile (example.respond example.devices)
                example.EqualPathNames example.OptionsEqual
                false (audit.group_by_instance example.audits) "x" tt)) =
    (map (audit.enable_call "x") cs ++ map (audit.disable_call "x") ds)%list.
Proof.
  split; [reflexivity|].
  exact (proj2 (proj2 (live_order_of_operations
                         (example.respond example.devices)
                         example.EqualPathNames example.OptionsEqual "x" tt))
           (audit.group_by_instance example.audits) eq_refl).
Defined.

(** C5 fails for policies: the document has the policy [p] with new rules,
    the instance [x] has [p] with old rules, so [p] is the one update of the
    diff; the live [Apply] puts [q], deletes [stale], and issues no call for
    [p]. *)
Lemma policy_update_not_applied :
  map vault.Key
    (snd (vault.DiffItems
            (policy.asItems example.policies)
            (policy.asItems
               (map (fun name =>
                       {| policy.Name := name;
                          policy.Rules := "old rules of " +:+ name;
                          policy.Type_ := ""; policy.Instance := instance.zero;
                          policy.Description := "" |})
                  ["root"; "default"; "p"; "stale"])))) = ["p"] /\
  mutations (trace (example.policy_Apply false)) =
  [PutVaultPolicy "x" "q" "rules of q"; DeleteVaultPolicy "x" "stale"].
Proof. split; vm_compute; reflexivity. Qed.

(** C4, as the code has it.  In the audit package a list call that returns an
    error is logged, the instance is added to the invalid ones and the pass
    over it ends with no further call; every call of a run that returned an
    error is followed by a log entry and by [AddInvalid] of its instance; and
    after a decoded document the run still lists the audit devices of every
    configured instance.  The secrets-engine and the policy package get no
    error back from their calls and never call [AddInvalid]. *)
Theorem failed_calls_mark_the_instance {W : Type}
    (respond : forall c : call, W -> response c * W)
    (EqualPathNames : string -> string -> bool)
    (OptionsEqual : gmap string value -> gmap string value -> bool)
    (Unmarshal_engines : list Byte.byte -> decoded secretsengine.entry)
    (Unmarshal_policies : list Byte.byte -> decoded policy.entry)
    (Unmarshal_audits : list Byte.byte -> decoded audit.entry)
    (InstanceAddresses : list string)
    (visit : gmap string (list string) -> list (string * list string))
    (schedule : list string -> list string)
    (completion : list policy.entry -> list policy.entry)
    (entriesBytes : list Byte.byte) (dryRun : bool) (threadPoolSize : Z)
    (w : W) :
  (forall (desired : gmap string (list audit.entry)) instance w' err,
     snd (fst (respond (ListAuditDevices instance) w')) = Some err ->
     out (audit.reconcile respond EqualPathNames OptionsEqual
            dryRun desired instance w') = Returned tt /\
     trace (audit.reconcile respond EqualPathNames OptionsEqual
              dryRun desired instance w') =
     [Called (ListAuditDevices instance) (Some err);
      Logged InfoLevel "[Vault Identity] failed to list audit device"
        [("error", err); ("instance", instance)];
      Called (AddInvalid instance) None]) /\
  failures_marked
    (trace (audit.Apply respond EqualPathNames OptionsEqual
              Unmarshal_audits InstanceAddresses
              entriesBytes dryRun threadPoolSize w)) /\
  (forall entries instance,
     Unmarshal_audits entriesBytes = Decoded entries ->
     In instance InstanceAddresses ->
     exists err,
       In (Called (ListAuditDevices instance) err)
          (trace (audit.Apply respond EqualPathNames OptionsEqual
                    Unmarshal_audits InstanceAddresses
                    entriesBytes dryRun threadPoolSize w))) /\
  Forall (fun ev => marks_invalid ev = false)
    (trace (secretsengine.Apply respond EqualPathNames OptionsEqual
              Unmarshal_engines InstanceAddresses
              entriesBytes dryRun threadPoolSize w)) /\
  Forall (fun ev => marks_invalid ev = false)
    (trace (policy.Apply respond Unmarshal_policies InstanceAddresses
              visit schedule completion entriesBytes dryRun threadPoolSize w)).
Proof.
  split; [|split; [|split; [|split]]].
  - intros dm instance w' err. apply au_reconcile_fetch_failure.
  - apply au_Apply_marked.
  - intros entries instance. apply au_Apply_visits_all.
  - apply se_Apply_always; intros; reflexivity.
  - apply po_Apply_always; intros; reflexivity.
Qed.

Lemma failed_calls_mark_the_instance_witness :
  snd (fst (example.respond example.devices (ListAuditDevices "down") tt)) =
  Some "connection refused" /\
  trace (audit.reconcile (example.respond example.devices)
           example.EqualPathNames example.OptionsEqual
           false (audit.group_by_instance example.audits) "down" tt) =
  [Called (ListAuditDevices "down") (Some "connection refused");
   Logged InfoLevel "[Vault Identity] failed to list audit device"
     [("error", "connection refused"); ("instance", "down")];
   Called (AddInvalid "down") None] /\
  exists err,
    In (Called (ListAuditDevices "x") err)
       (trace (example.audit_Apply example.audits ["down"; "x"] false)).
Proof.
  pose proof (failed_calls_mark_the_instance
                (example.respond example.devices)
                example.EqualPathNames example.OptionsEqual
                (fun _ => Decoded example.engines)
                (fun _ => Decoded example.policies)
                (fun _ => Decoded example.audits)
                ["down"; "x"] example.visit example.schedule example.completion
                [] false 2 tt) as (HF & _ & HV & _).
  split; [reflexivity|]. split.
  - exact (proj2 (HF (audit.group_by_instance example.audits) "down" tt
                    "connection refused" eq_refl)).
  - apply (HV example.audits "x"); [reflexivity|].
    right. left. reflexivity.
Defined.

(** C4 fails in the audit package after a failed enable.  The document has
    the devices [a/] and [b/], the instance [x] has [file/], and [x] refuses
    to enable [a/]: after the error and [AddInvalid], the run goes on to
    enable [b/] and to disable [file/] on [x]. *)
Lemma audit_continues_after_failed_enable :
  quiet_after_failure
    (trace (example.audit_Apply example.audits ["x"] false)) = false /\
  trace (example.audit_Apply example.audits ["x"] false) =
  [Called (ListAuditDevices "x") None;
   Called (audit.enable_call "x" (example.audit_device "a/"))
     (Some "permission denied");
   Logged InfoLevel "[Vault Identity] failed to enable audit device"
     [("error", "permission denied"); ("instance", "x"); ("type", "file")];
   Called (AddInvalid "x") None;
   Called (audit.enable_call "x" (example.audit_device "b/")) None;
   Called (DisableAuditDevice "x" "file/") None;
   Called RemoveInstanceFromReconciliation None].
Proof. split; vm_compute; reflexivity. Qed.

(** * Further properties of the code *)

Lemma prefix_app (p s : string) : String.prefix p (p +:+ s) = true.
Proof.
  induction p as [|c p IH]; simpl; [destruct s; reflexivity|].
  destruct (Ascii.ascii_dec c c); [exact IH|congruence].
Qed.

Lemma prefix_split (p s : string) :
  String.prefix p s = true -> exists rest, s = p +:+ rest.
Proof.
  revert s. induction p as [|c p IH]; intros s H.
  - exists s. reflexivity.
  - destruct s as [|d s]; simpl in H; [discriminate|].
    destruct (Ascii.ascii_dec c d) as [->|]; [|discriminate].
    destruct (IH s H) as [rest ->]. exists rest. reflexivity.
Qed.

(** X1. A path is a default mount exactly when it extends one of the four
    prefixes [cubbyhole/], [identity/], [secret/], [sys/]: every path below
    such a mount is default, and the bare names without the slash are not. *)
Theorem isDefaultMount_iff_prefix (path : string) :
  secretsengine.isDefaultMount path = true <->
  exists rest,
    path = "cubbyhole/" +:+ rest \/ path = "identity/" +:+ rest \/
    path = "secret/" +:+ rest \/ path = "sys/" +:+ rest.
Proof.
  unfold secretsengine.isDefaultMount. split.
  - destruct (String.prefix "cubbyhole/" path) eqn:E1.
    { intros _. destruct (prefix_split _ _ E1) as [r ->]. exists r. tauto. }
    destruct (String.prefix "identity/" path) eqn:E2.
    { intros _. destruct (prefix_split _ _ E2) as [r ->]. exists r. tauto. }
    destruct (String.prefix "secret/" path) eqn:E3.
    { intros _. destruct (prefix_split _ _ E3) as [r ->]. exists r. tauto. }
    destruct (String.prefix "sys/" path) eqn:E4; [|discriminate].
    intros _. destruct (prefix_split _ _ E4) as [r ->]. exists r. tauto.
  - intros [r [-> | [-> | [-> | ->]]]].
    + rewrite prefix_app. reflexivity.
    + rewrite (prefix_app "identity/"). destruct (String.prefix _ _); reflexivity.
    + rewrite (prefix_app "secret/"). repeat destruct (String.prefix _ _); reflexivity.
    + rewrite (prefix_app "sys/"). repeat destruct (String.prefix _ _); reflexivity.
Qed.

(** X2. [Equals] of each package does not read the [Instance] field, and
    [Equals] of the policy package reads neither [Type] nor [Description]:
    entries that agree on the compared fields compare alike, so a desired
    entry never differs from an observed one, which is built without an
    instance, by its instance alone. *)
Theorem Equals_ignores_instance
    (EqualPathNames : string -> string -> bool)
    (OptionsEqual : gmap string value -> gmap string value -> bool) :
  (forall e e' o o' : secretsengine.entry,
     secretsengine.Path e = secretsengine.Path e' ->
     secretsengine.Type_ e = secretsengine.Type_ e' ->
     secretsengine.Description e = secretsengine.Description e' ->
     secretsengine.Options e = secretsengine.Options e' ->
     secretsengine.Path o = secretsengine.Path o' ->
     secretsengine.Type_ o = secretsengine.Type_ o' ->
     secretsengine.Description o = secretsengine.Description o' ->
     secretsengine.Options o = secretsengine.Options o' ->
     secretsengine.Equals EqualPathNames OptionsEqual e (VSecretsEngine o) =
     secretsengine.Equals EqualPathNames OptionsEqual e' (VSecretsEngine o')) /\
  (forall e e' o o' : policy.entry,
     policy.Name e = policy.Name e' -> policy.Rules e = policy.Rules e' ->
     policy.Name o = policy.Name o' -> policy.Rules o = policy.Rules o' ->
     policy.Equals e (VPolicy o) = policy.Equals e' (VPolicy o')) /\
  (forall e e' o o' : audit.entry,
     audit.Path e = audit.Path e' ->
     audit.Type_ e = audit.Type_ e' ->
     audit.Description e = audit.Description e' ->
     audit.Options e = audit.Options e' ->
     audit.Path o = audit.Path o' ->
     audit.Type_ o = audit.Type_ o' ->
     audit.Description o = audit.Description o' ->
     audit.Options o = audit.Options o' ->
     audit.Equals EqualPathNames OptionsEqual e (VAudit o) =
     audit.Equals EqualPathNames OptionsEqual e' (VAudit o')).
Proof.
  split; [|split].
  - intros e e' o o' H1 H2 H3 H4 H5 H6 H7 H8.
    unfold secretsengine.Equals, secretsengine.ambiguousOptions. congruence.
  - intros e e' o o' H1 H2 H3 H4. unfold policy.Equals. congruence.
  - intros e e' o o' H1 H2 H3 H4 H5 H6 H7 H8.
    unfold audit.Equals, audit.ambiguousOptions. congruence.
Qed.

Lemma Equals_ignores_instance_witness :
  policy.Equals example.policy_p
    (VPolicy {| policy.Name := "p"; policy.Rules := "new rules of p";
                policy.Type_ := ""; policy.Instance := instance.zero;
                policy.Description := "" |}) =
  policy.Equals
    {| policy.Name := "p"; policy.Rules := "new rules of p";
       policy.Type_ := "acl"; policy.Instance := example.on "y";
       policy.Description := "team policy" |}
    (VPolicy example.policy_p).
Proof.
  exact (proj1 (proj2 (Equals_ignores_instance
                         example.EqualPathNames example.OptionsEqual))
           _ _ _ _ eq_refl eq_refl eq_refl eq_refl).
Defined.

(** X3. [Equals] of the policy package is an equivalence on policy entries:
    reflexive, symmetric and transitive. *)
Theorem policy_Equals_equivalence (a b c : policy.entry) :
  policy.Equals a (VPolicy a) = true /\
  policy.Equals a (VPolicy b) = policy.Equals b (VPolicy a) /\
  (policy.Equals a (VPolicy b) = true ->
   policy.Equals b (VPolicy c) = true ->
   policy.Equals a (VPolicy c) = true).
Proof.
  unfold policy.Equals. split; [|split].
  - rewrite !String.eqb_refl. reflexivity.
  - rewrite (String.eqb_sym (policy.Name a)), (String.eqb_sym (policy.Rules a)).
    reflexivity.
  - rewrite !andb_true_iff, !String.eqb_eq. intros [-> ->] [-> ->]. tauto.
Qed.

Lemma policy_Equals_equivalence_witness :
  policy.Equals example.policy_p (VPolicy example.policy_p) = true /\
  policy.Equals example.policy_p
    (VPolicy (example.scenario "p" "new rules of p")) = true.
Proof.
  pose proof (policy_Equals_equivalence example.policy_p example.policy_p
                (example.scenario "p" "new rules of p")) as (R & _ & T).
  split; [exact R|]. apply T; reflexivity.
Defined.

Lemma fold_left_insert_list_to_map {A B} (f : A -> B)
    (l : list (string * A)) (acc : gmap string B) :
  fold_left (fun (opts : gmap string B) kv => <[fst kv := f (snd kv)]> opts) l acc =
  list_to_map (prod_map id f <$> rev l) ∪ acc.
Proof.
  revert acc. induction l as [|[k v] l IH]; intros acc; simpl.
  - rewrite (left_id_L ∅ (∪)). reflexivity.
  - rewrite IH. rewrite fmap_app, list_to_map_app. simpl.
    rewrite <- (assoc_L (∪)). f_equal.
    rewrite insert_union_singleton_l.
    rewrite insert_empty. reflexivity.
Qed.

(** X4. The loop of [ambiguousOptions] gives the same map in whatever order
    [range] visits the options: each declared key is bound to its string,
    boxed, and no other key is bound; that map is [ambiguousOptions] of the
    secrets-engine and of the audit package. *)
Theorem ambiguousOptions_any_order (options : gmap string string)
    (visited : list (string * string)) :
  visited ≡ₚ map_to_list options ->
  ambiguousOptions_range visited = VString <$> options /\
  (forall k, ambiguousOptions_range visited !! k = VString <$> options !! k) /\
  (forall e : secretsengine.entry,
     secretsengine.Options e = options ->
     secretsengine.ambiguousOptions e = ambiguousOptions_range visited) /\
  (forall e : audit.entry,
     audit.Options e = options ->
     audit.ambiguousOptions e = ambiguousOptions_range visited).
Proof.
  intros Hp.
  assert (E : ambiguousOptions_range visited = VString <$> options).
  { unfold ambiguousOptions_range. rewrite fold_left_insert_list_to_map.
    rewrite (right_id_L ∅ (∪)).
    replace (VString <$> options)
      with (list_to_map (prod_map id VString <$> map_to_list options)
              : gmap string value)
      by (rewrite list_to_map_fmap, list_to_map_to_list; reflexivity).
    apply list_to_map_proper.
    - rewrite <- list_fmap_compose.
      assert (Hfst : (fst ∘ prod_map id VString) <$> rev visited = fst <$> rev visited).
      { apply list_fmap_ext. intros ? [] ?. reflexivity. }
      rewrite Hfst, <- Permutation_rev, Hp. apply NoDup_fst_map_to_list.
    - apply fmap_Permutation. rewrite <- Permutation_rev. exact Hp. }
  split; [exact E|]. split.
  - intros k. rewrite E. apply lookup_fmap.
  - split; intros e <-; symmetry; exact E.
Qed.

Lemma ambiguousOptions_any_order_witness :
  ambiguousOptions_range [("version", "2"); ("default_lease_ttl", "1h")] =
  VString <$> ({[ "default_lease_ttl" := "1h"; "version" := "2" ]} : gmap string string).
Proof.
  apply (ambiguousOptions_any_order
           ({[ "default_lease_ttl" := "1h"; "version" := "2" ]} : gmap string string)
           [("version", "2"); ("default_lease_ttl", "1h")]).
  vm_compute. first [reflexivity | apply perm_swap].
Defined.

Lemma group_fold_lookup {A} (addr : A -> string) (entries : list A)
    (m : gmap string (list A)) (a : string) :
  default [] (fold_left
                (fun (m : gmap string (list A)) e =>
                   <[addr e := (default [] (m !! addr e) ++ [e])%list]> m)
                entries m !! a) =
  (default [] (m !! a) ++ List.filter (fun e => String.eqb (addr e) a) entries)%list.
Proof.
  revert m. induction entries as [|e entries IH]; intros m; simpl.
  - rewrite app_nil_r. reflexivity.
  - rewrite IH. destruct (String.eqb_spec (addr e) a) as [->|Hne].
    + rewrite lookup_insert_eq. simpl. rewrite <- app_assoc. reflexivity.
    + rewrite lookup_insert_ne by exact Hne. reflexivity.
Qed.

(** X5. The first loop of each [Apply] groups the entries by instance
    address: the slice of an address holds exactly the entries of that
    address, in the order of the document, and an address that no entry has
    has the nil slice. *)
Theorem group_by_instance_filter (a : string) :
  (forall entries : list secretsengine.entry,
     default [] (secretsengine.group_by_instance entries !! a) =
     List.filter
       (fun e => String.eqb (instance.Address (secretsengine.Instance e)) a)
       entries) /\
  (forall entries : list policy.entry,
     default [] (policy.group_by_instance entries !! a) =
     List.filter
       (fun e => String.eqb (instance.Address (policy.Instance e)) a)
       entries) /\
  (forall entries : list audit.entry,
     default [] (audit.group_by_instance entries !! a) =
     List.filter
       (fun e => String.eqb (instance.Address (audit.Instance e)) a)
       entries).
Proof.
  split; [|split]; intros entries.
  - unfold secretsengine.group_by_instance.
    rewrite (group_fold_lookup (fun e => instance.Address (secretsengine.Instance e))).
    rewrite lookup_empty. reflexivity.
  - unfold policy.group_by_instance.
    rewrite (group_fold_lookup (fun e => instance.Address (policy.Instance e))).
    rewrite lookup_empty. reflexivity.
  - unfold audit.group_by_instance.
    rewrite (group_fold_lookup (fun e => instance.Address (audit.Instance e))).
    rewrite lookup_empty. reflexivity.
Qed.

Lemma fetches_app t1 t2 : fetches (t1 ++ t2) = (fetches t1 ++ fetches t2)%list.
Proof.
  induction t1 as [|[c err|lvl msg fields] t1 IH]; simpl; [reflexivity| |exact IH].
  destruct (fetching c); simpl; rewrite IH; reflexivity.
Qed.

Lemma fetches_none t :
  Forall (fun ev => match ev with
                    | Called c _ => fetching c = false
                    | Logged _ _ _ => True
                    end) t ->
  fetches t = [].
Proof.
  induction 1 as [|[c err|lvl msg fields] t H _ IH]; simpl; [reflexivity| |exact IH].
  rewrite H. exact IH.
Qed.

Lemma seen_existsb (a : string) (seen : list string) :
  existsb (String.eqb a) seen = true <-> In a seen.
Proof.
  rewrite existsb_exists. split.
  - intros (b & Hb & E). apply String.eqb_eq in E. subst. exact Hb.
  - intros H. exists a. split; [exact H|apply String.eqb_refl].
Qed.

Section FetchOnce.
Context {W : Type}.
Variable respond : forall c : call, W -> response c * W.


Lemma se_fetch_enabled_from (entries : list secretsengine.entry)
    (m : gmap string (list (string * api.MountOutput))) (seen : list string) w :
  (forall a, is_Some (m !! a) <-> In a seen) ->
  exists m',
    out (foldM
           (fun (m : gmap string (list (string * api.MountOutput))) e =>
              let a := instance.Address (secretsengine.Instance e) in
              match m !! a with
              | Some _ => ret m
              | None =>
                  bind (invoke respond (ListSecretsEngines a))
                       (fun r => ret (<[a := r]> m))
              end) entries m w) = Returned m' /\
    trace (foldM
           (fun (m : gmap string (list (string * api.MountOutput))) e =>
              let a := instance.Address (secretsengine.Instance e) in
              match m !! a with
              | Some _ => ret m
              | None =>
                  bind (invoke respond (ListSecretsEngines a))
                       (fun r => ret (<[a := r]> m))
              end) entries m w) =
    map (fun a => Called (ListSecretsEngines a) None)
      (unseen seen
         (map (fun e => instance.Address (secretsengine.Instance e)) entries)) /\
    (forall a,
       is_Some (m' !! a) <->
       In a seen \/
       In a (map (fun e => instance.Address (secretsengine.Instance e)) entries)).
Proof.
  revert m seen w. induction entries as [|e entries IH]; intros m seen w Hm.
  - exists m. simpl. split; [reflexivity|]. split; [reflexivity|].
    intros a. rewrite Hm. tauto.
  - cbn [foldM map unseen].
    set (a0 := instance.Address (secretsengine.Instance e)).
    rewrite out_bind, trace_bind.
    destruct (m !! a0) as [r|] eqn:E.
    + assert (Hin : In a0 seen) by (apply Hm; rewrite E; eauto).
      rewrite (proj2 (seen_existsb a0 seen) Hin).
      cbn [ret out world trace].
      destruct (IH m seen w Hm) as (m' & Ho & Ht & Hd).
      exists m'. split; [exact Ho|]. split; [exact Ht|].
      intros a. rewrite Hd. simpl. intuition (subst; auto).
    + assert (Hnin : existsb (String.eqb a0) seen = false).
      { apply not_true_is_false. intros H. apply seen_existsb, Hm in H.
        rewrite E in H. destruct H; discriminate. }
      rewrite Hnin. cbn [bind invoke ret out world trace app].
      set (r := fst (respond (ListSecretsEngines a0) w)).
      set (w1 := snd (respond (ListSecretsEngines a0) w)).
      destruct (IH (<[a0 := r]> m) (a0 :: seen) w1) as (m' & Ho & Ht & Hd).
      { intros a. destruct (String.eqb_spec a0 a) as [->|Hne].
        - rewrite lookup_insert_eq. split; [intros _; left; reflexivity|eauto].
        - rewrite lookup_insert_ne by exact Hne. rewrite Hm. simpl. intuition. }
      exists m'. split; [exact Ho|]. split.
      * simpl. f_equal. exact Ht.
      * intros a. rewrite Hd. simpl. intuition.
Qed.

Lemma se_fetch_enabled_once (entries : list secretsengine.entry) w :
  exists m,
    out (secretsengine.fetch_enabled respond entries w) = Returned m /\
    trace (secretsengine.fetch_enabled respond entries w) =
    map (fun a => Called (ListSecretsEngines a) None)
      (first_occurrences
         (map (fun e => instance.Address (secretsengine.Instance e)) entries)) /\
    (forall a,
       is_Some (m !! a) <->
       In a (map (fun e => instance.Address (secretsengine.Instance e)) entries)).
Proof.
  destruct (se_fetch_enabled_from entries ∅ [] w) as (m & Ho & Ht & Hd).
  { intros a. rewrite lookup_empty. split; [intros [? ?]; discriminate|intros []]. }
  exists m. split; [exact Ho|]. split; [exact Ht|].
  intros a. rewrite Hd. simpl. tauto.
Qed.






End FetchOnce.




Lemma fetches_calls (f : string -> call) (l : list string) :
  (forall a, fetching (f a) = true) ->
  fetches (map (fun a => Called (f a) None) l) = map f l.
Proof.
  intros H. induction l as [|a l IH]; simpl; [reflexivity|].
  rewrite H, IH. reflexivity.
Qed.


(** X6. On a decoded document the secrets-engine [Apply], dry or live, lists
    the engines of each instance address of the document exactly once, in the
    order in which the addresses first occur, and makes no other fetching
    call. *)
Theorem secretsengine_lists_each_instance_once {W : Type}
    (respond : forall c : call, W -> response c * W)
    (EqualPathNames : string -> string -> bool)
    (OptionsEqual : gmap string value -> gmap string value -> bool)
    (Unmarshal : list Byte.byte -> decoded secretsengine.entry)
    (InstanceAddresses : list string)
    (entriesBytes : list Byte.byte) (dryRun : bool) (threadPoolSize : Z)
    (w : W) (entries : list secretsengine.entry) :
  Unmarshal entriesBytes = Decoded entries ->
  fetches
    (trace (secretsengine.Apply respond EqualPathNames OptionsEqual
              Unmarshal InstanceAddresses
              entriesBytes dryRun threadPoolSize w)) =
  map ListSecretsEngines
    (first_occurrences
       (map (fun e => instance.Address (secretsengine.Instance e)) entries)).
Proof.
  intros HU. unfold secretsengine.Apply. rewrite HU.
  rewrite trace_bind. cbn [ret out world trace app].
  rewrite trace_bind.
  destruct (se_fetch_enabled_once respond entries w) as (m & Ho & Ht & _).
  rewrite Ho, Ht, fetches_app.
  rewrite fetches_calls by reflexivity.
  rewrite fetches_none; [apply app_nil_r|].
  apply always_forM. intros inst.
  unfold secretsengine.reconcile, secretsengine.dry_run, secretsengine.live_run,
    secretsengine.assert_entry.
  always_tac; reflexivity.
Qed.


(** X8. When the document fails to decode, the [Apply] of each package only
    writes the fatal log entry: it makes no call at all and leaves the remote
    side as it was. *)
Theorem decode_failure_makes_no_call {W : Type}
    (respond : forall c : call, W -> response c * W)
    (EqualPathNames : string -> string -> bool)
    (OptionsEqual : gmap string value -> gmap string value -> bool)
    (Unmarshal_engines : list Byte.byte -> decoded secretsengine.entry)
    (Unmarshal_policies : list Byte.byte -> decoded policy.entry)
    (Unmarshal_audits : list Byte.byte -> decoded audit.entry)
    (InstanceAddresses : list string)
    (visit : gmap string (list string) -> list (string * list string))
    (schedule : list string -> list string)
    (completion : list policy.entry -> list policy.entry)
    (entriesBytes : list Byte.byte) (dryRun : bool) (threadPoolSize : Z)
    (w : W) (err : error) :
  (Unmarshal_engines entriesBytes = DecodeError err ->
   trace (secretsengine.Apply respond EqualPathNames OptionsEqual
            Unmarshal_engines InstanceAddresses
            entriesBytes dryRun threadPoolSize w) =
   [Logged FatalLevel
      "[Vault Secrets engine] failed to decode secrets engines configuration"
      [("error", err)]] /\
   world (secretsengine.Apply respond EqualPathNames OptionsEqual
            Unmarshal_engines InstanceAddresses
            entriesBytes dryRun threadPoolSize w) = w) /\
  (Unmarshal_policies entriesBytes = DecodeError err ->
   trace (policy.Apply respond Unmarshal_policies InstanceAddresses
            visit schedule completion entriesBytes dryRun threadPoolSize w) =
   [Logged FatalLevel "[Vault Policy] failed to decode policies configuration"
      [("error", err)]] /\
   world (policy.Apply respond Unmarshal_policies InstanceAddresses
            visit schedule completion entriesBytes dryRun threadPoolSize w) = w) /\
  (Unmarshal_audits entriesBytes = DecodeError err ->
   trace (audit.Apply respond EqualPathNames OptionsEqual
            Unmarshal_audits InstanceAddresses
            entriesBytes dryRun threadPoolSize w) =
   [Logged FatalLevel "[Vault Audit] failed to decode audit device configuration"
      [("error", err)]] /\
   world (audit.Apply respond EqualPathNames OptionsEqual
            Unmarshal_audits InstanceAddresses
            entriesBytes dryRun threadPoolSize w) = w).
Proof.
  split; [|split]; intros HU.
  - unfold secretsengine.Apply. rewrite HU. split; reflexivity.
  - unfold policy.Apply. rewrite HU. split; reflexivity.
  - unfold audit.Apply. rewrite HU. split; reflexivity.
Qed.

Lemma Forall_False_nil {A} (l : list A) : Forall (fun _ => False) l -> l = [].
Proof. destruct 1; [reflexivity|contradiction]. Qed.

(** X9. On a document that decodes to no entry the secrets-engine and the
    policy [Apply] do nothing, whatever the configured instances hold: no
    call and no log entry, dry or live.  For the policy package the visit of
    an empty map visits nothing. *)
Theorem empty_document_does_nothing {W : Type}
    (respond : forall c : call, W -> response c * W)
    (EqualPathNames : string -> string -> bool)
    (OptionsEqual : gmap string value -> gmap string value -> bool)
    (Unmarshal_engines : list Byte.byte -> decoded secretsengine.entry)
    (Unmarshal_policies : list Byte.byte -> decoded policy.entry)
    (InstanceAddresses : list string)
    (visit : gmap string (list string) -> list (string * list string))
    (schedule : list string -> list string)
    (completion : list policy.entry -> list policy.entry)
    (entriesBytes : list Byte.byte) (dryRun : bool) (threadPoolSize : Z)
    (w : W) :
  (Unmarshal_engines entriesBytes = Decoded [] ->
   trace (secretsengine.Apply respond EqualPathNames OptionsEqual
            Unmarshal_engines InstanceAddresses
            entriesBytes dryRun threadPoolSize w) = []) /\
  (Unmarshal_policies entriesBytes = Decoded [] ->
   visit ∅ = [] ->
   trace (policy.Apply respond Unmarshal_policies InstanceAddresses
            visit schedule completion entriesBytes dryRun threadPoolSize w) = []).
Proof.
  split.
  - intros HU. apply Forall_False_nil. revert w.
    unfold secretsengine.Apply. rewrite HU.
    apply always_bind_ensures with (Q := fun es => es = []).
    { apply ensures_ret. reflexivity. }
    intros ? ->.
    apply always_bind_ensures
      with (Q := fun m : gmap string (list (string * api.MountOutput)) => m = ∅).
    { apply ensures_ret. reflexivity. }
    intros ? ->. apply always_forM. intros inst.
    apply se_reconcile_idle; [apply lookup_empty|].
    rewrite fmap_empty. apply lookup_empty.
  - intros HU Hv. apply Forall_False_nil. revert w.
    unfold policy.Apply. rewrite HU.
    apply always_bind_ensures with (Q := fun es => es = []).
    { apply ensures_ret. reflexivity. }
    intros ? ->.
    apply always_bind_ensures
      with (Q := fun m : gmap string (list string) => m = ∅).
    { apply ensures_ret. reflexivity. }
    intros ? ->.
    apply always_bind_ensures
      with (Q := fun m : gmap string (list policy.entry) => m = ∅).
    { unfold policy.fetch_existing. rewrite Hv. apply ensures_ret. reflexivity. }
    intros ? ->. apply always_forM. intros inst.
    apply po_reconcile_idle; apply lookup_empty.
Qed.


(** X10. Every call of an [Apply] that changes an instance is made against
    one of the configured instance addresses: an entry of the document whose
    address is not configured is never applied. *)
Theorem mutations_target_configured_instances {W : Type}
    (respond : forall c : call, W -> response c * W)
    (EqualPathNames : string -> string -> bool)
    (OptionsEqual : gmap string value -> gmap string value -> bool)
    (Unmarshal_engines : list Byte.byte -> decoded secretsengine.entry)
    (Unmarshal_policies : list Byte.byte -> decoded policy.entry)
    (Unmarshal_audits : list Byte.byte -> decoded audit.entry)
    (InstanceAddresses : list string)
    (visit : gmap string (list string) -> list (string * list string))
    (schedule : list string -> list string)
    (completion : list policy.entry -> list policy.entry)
    (entriesBytes : list Byte.byte) (dryRun : bool) (threadPoolSize : Z)
    (w : W) :
  Forall (mutates_within InstanceAddresses)
    (trace (secretsengine.Apply respond EqualPathNames OptionsEqual
              Unmarshal_engines InstanceAddresses
              entriesBytes dryRun threadPoolSize w)) /\
  Forall (mutates_within InstanceAddresses)
    (trace (policy.Apply respond Unmarshal_policies InstanceAddresses
              visit schedule completion entriesBytes dryRun threadPoolSize w)) /\
  Forall (mutates_within InstanceAddresses)
    (trace (audit.Apply respond EqualPathNames OptionsEqual
              Unmarshal_audits InstanceAddresses
              entriesBytes dryRun threadPoolSize w)).
Proof.
  split; [|split]; revert w.
  - unfold secretsengine.Apply.
    apply always_bind; [always_tac; exact I|]. intros entries.
    apply always_bind.
    { unfold secretsengine.fetch_enabled. always_tac. discriminate. }
    intros m. apply always_forM_In. intros inst Hin.
    unfold secretsengine.reconcile, secretsengine.dry_run, secretsengine.live_run,
      secretsengine.assert_entry.
    always_tac; try exact I; (exists inst; split; [exact Hin|reflexivity]).
  - unfold policy.Apply.
    apply always_bind; [always_tac; exact I|]. intros entries.
    apply always_bind.
    { unfold policy.fetch_names. always_tac. discriminate. }
    intros names. apply always_bind.
    { unfold policy.fetch_existing, policy.fetch_policies. always_tac. discriminate. }
    intros m. apply always_forM_In. intros inst Hin.
    unfold policy.reconcile, policy.dry_run, policy.live_run, policy.assert_entry.
    always_tac; try exact I; (exists inst; split; [exact Hin|reflexivity]).
  - unfold audit.Apply.
    apply always_bind; [always_tac; exact I|]. intros entries.
    apply always_bind.
    2:{ always_tac. discriminate. }
    apply always_forM_In. intros inst Hin.
    unfold audit.reconcile, audit.dry_run, audit.live_run, audit.assert_entry.
    always_tac; try exact I; try discriminate;
      (exists inst; split; [exact Hin|reflexivity]).
Qed.

Section AuditRuns.
Context {W : Type}.
Variable respond : forall c : call, W -> response c * W.
Variable EqualPathNames : string -> string -> bool.
Variable OptionsEqual : gmap string value -> gmap string value -> bool.


Lemma au_reconcile_fetches dryRun dm inst w :
  fetches (trace (audit.reconcile respond EqualPathNames OptionsEqual
                    dryRun dm inst w)) = [ListAuditDevices inst] /\
  Forall not_remove
    (trace (audit.reconcile respond EqualPathNames OptionsEqual dryRun dm inst w)).
Proof.
  assert (A1 : forall err : error,
             always (fun ev => quiet_fetch ev /\ not_remove ev)
               (bind (log_Info (W:=W) "[Vault Identity] failed to list audit device"
                        [("error", err); ("instance", inst)])
                  (fun _ => bind (invoke respond (AddInvalid inst))
                              (fun _ => ret tt)))).
  { intros err. always_tac; split; try exact I; try reflexivity; discriminate. }
  assert (A2 : forall c d,
             always (fun ev => quiet_fetch ev /\ not_remove ev)
               (if dryRun then audit.dry_run inst c d
                else audit.live_run respond inst c d)).
  { intros c d. unfold audit.dry_run, audit.live_run, audit.assert_entry.
    always_tac; split; try exact I; try reflexivity; discriminate. }
  unfold audit.reconcile. rewrite trace_bind. cbn [invoke out world trace].
  assert (A : Forall (fun ev => quiet_fetch ev /\ not_remove ev)
                (trace
                   ((let enabledAudits := fst (fst (respond (ListAuditDevices inst) w)) in
                     match snd (fst (respond (ListAuditDevices inst) w)) with
                     | Some err =>
                         bind (log_Info "[Vault Identity] failed to list audit device"
                                 [("error", err); ("instance", inst)])
                           (fun _ => bind (invoke respond (AddInvalid inst))
                                       (fun _ => ret tt))
                     | None =>
                         let existingAduits := audit.existing_audits enabledAudits in
                         let '(toBeWritten, toBeDeleted, _) :=
                           vault.DiffItems
                             (audit.asItems EqualPathNames OptionsEqual
                                (default [] (dm !! inst)))
                             (audit.asItems EqualPathNames OptionsEqual existingAduits) in
                         if dryRun
                         then audit.dry_run inst toBeWritten toBeDeleted
                         else audit.live_run respond inst toBeWritten toBeDeleted
                     end) (snd (respond (ListAuditDevices inst) w))))).
  { cbv zeta.
    destruct (snd (fst (respond (ListAuditDevices inst) w))) as [err|].
    - apply A1.
    - destruct (vault.DiffItems _ _) as [[c d] u]. apply A2. }
  split.
  - rewrite fetches_app. simpl.
    rewrite fetches_none; [reflexivity|].
    eapply Forall_impl; [exact A|]. intros ev [H _]. exact H.
  - apply Forall_app. split; [repeat constructor; discriminate|].
    eapply Forall_impl; [exact A|]. intros ev [_ H]. exact H.
Qed.

Lemma au_forM_fetches dryRun dm (addresses : list string) w :
  out (forM_ addresses
         (audit.reconcile respond EqualPathNames OptionsEqual dryRun dm) w) =
  Returned tt /\
  fetches (trace (forM_ addresses
                    (audit.reconcile respond EqualPathNames OptionsEqual dryRun dm) w)) =
  map ListAuditDevices addresses /\
  Forall not_remove
    (trace (forM_ addresses
              (audit.reconcile respond EqualPathNames OptionsEqual dryRun dm) w)).
Proof.
  revert w. induction addresses as [|a l IH]; intros w.
  - repeat split; constructor.
  - cbn [forM_]. rewrite out_bind, trace_bind.
    rewrite (returns_unit _ _ (au_reconcile_returns respond EqualPathNames
                                 OptionsEqual dryRun dm a)).
    destruct (au_reconcile_fetches dryRun dm a w) as [Hf Hn].
    destruct (IH (world (audit.reconcile respond EqualPathNames OptionsEqual
                           dryRun dm a w))) as (Ho & Hf' & Hn').
    split; [exact Ho|]. split.
    + rewrite fetches_app, Hf, Hf'. reflexivity.
    + apply Forall_app. split; assumption.
Qed.
End AuditRuns.

(** X11. On a decoded document the audit [Apply], dry or live, lists the
    audit devices of every configured instance exactly once, in the order of
    the visit and whatever failed before, makes no other fetching call, and
    ends with its one call to [RemoveInstanceFromReconciliation]. *)
Theorem audit_lists_every_instance_once {W : Type}
    (respond : forall c : call, W -> response c * W)
    (EqualPathNames : string -> string -> bool)
    (OptionsEqual : gmap string value -> gmap string value -> bool)
    (Unmarshal : list Byte.byte -> decoded audit.entry)
    (InstanceAddresses : list string)
    (entriesBytes : list Byte.byte) (dryRun : bool) (threadPoolSize : Z)
    (w : W) (entries : list audit.entry) :
  Unmarshal entriesBytes = Decoded entries ->
  fetches
    (trace (audit.Apply respond EqualPathNames OptionsEqual
              Unmarshal InstanceAddresses entriesBytes dryRun threadPoolSize w)) =
  map ListAuditDevices InstanceAddresses /\
  exists t,
    trace (audit.Apply respond EqualPathNames OptionsEqual
             Unmarshal InstanceAddresses entriesBytes dryRun threadPoolSize w) =
    (t ++ [Called RemoveInstanceFromReconciliation None])%list /\
    Forall (fun ev => forall err,
              ev <> Called RemoveInstanceFromReconciliation err) t.
Proof.
  intros HU. unfold audit.Apply. rewrite HU.
  rewrite trace_bind. cbn [ret out world trace app].
  rewrite trace_bind.
  destruct (au_forM_fetches respond EqualPathNames OptionsEqual dryRun
              (audit.group_by_instance entries) InstanceAddresses w)
    as (Ho & Hf & Hn).
  rewrite Ho. split.
  - rewrite fetches_app, Hf. cbn. apply app_nil_r.
  - eexists. split; [reflexivity|exact Hn].
Qed.

Section Emits.
Context {W : Type}.
Variable respond : forall c : call, W -> response c * W.

Lemma emits_ret : emits (ret (W:=W) tt) [].
Proof. intros w. split; reflexivity. Qed.

Lemma emits_seq (m1 m2 : M W unit) l1 l2 :
  emits m1 l1 -> emits m2 l2 -> emits (bind m1 (fun _ => m2)) (l1 ++ l2).
Proof.
  intros H1 H2 w. destruct (H1 w) as [O1 T1].
  destruct (H2 (world (m1 w))) as [O2 T2].
  rewrite out_bind, trace_bind, O1, T1, T2. tauto.
Qed.

Lemma emits_forM_map {A B} (g : A -> B) (xs : list A) (body : B -> M W unit)
    (f : A -> list event) :
  (forall x, emits (body (g x)) (f x)) ->
  emits (forM_ (map g xs) body) (flat_map f xs).
Proof.
  intros H. induction xs as [|x xs IH]; simpl.
  - apply emits_ret.
  - apply emits_seq; [apply H|exact IH].
Qed.

End Emits.

(** ** The observed objects in another order *)

Lemma filter_reordered {A} (f : A -> bool) (l l' : list A) :
  l ≡ₚ l' -> List.filter f l ≡ₚ List.filter f l'.
Proof.
  induction 1 as [|x l l' _ IH|x y l|l l' l'' _ IH1 _ IH2]; simpl.
  - constructor.
  - destruct (f x); [constructor|]; exact IH.
  - destruct (f x), (f y); try reflexivity. apply perm_swap.
  - etransitivity; eassumption.
Qed.

Section DiffReorder.
Import vault diff.

Lemma table_get_reordered k (os os' : list Item) :
  List.NoDup (map Key os) -> os' ≡ₚ os ->
  table_get k (map (fun o => (Key o, o)) os') =
  table_get k (map (fun o => (Key o, o)) os).
Proof.
  intros Hnd Hp.
  assert (Hnd' : List.NoDup (map Key os')).
  { apply (Permutation.Permutation_NoDup (l := map Key os)); [|exact Hnd].
    apply Permutation_map. symmetry. exact Hp. }
  destruct (table_get k (map (fun o => (Key o, o)) os)) as [o|] eqn:E.
  - apply table_get_keyed_Some in E as [Hin <-].
    apply table_get_keyed_In; [exact Hnd'|].
    apply (Permutation_in o (Permutation_sym Hp) Hin).
  - apply table_get_keyed_None in E. apply table_get_keyed_None.
    intros Hin. apply E.
    apply (Permutation_in k (Permutation_map Key Hp) Hin).
Qed.

(** With unique keys, the order of the observed items decides nothing but
    the order of the deletes. *)
Lemma DiffItems_reordered {A} (item : A -> Item) (desired xs xs' : list A) :
  List.NoDup (map (fun x => Key (item x)) xs) -> xs' ≡ₚ xs ->
  exists cs ds ds' us,
    DiffItems (map item desired) (map item xs) =
    (map item cs, map item ds, map item us) /\
    DiffItems (map item desired) (map item xs') =
    (map item cs, map item ds', map item us) /\
    ds' ≡ₚ ds /\ (xs' = xs -> ds' = ds).
Proof.
  intros Hnd Hp.
  assert (Hk : List.NoDup (map Key (map item xs))) by (rewrite map_map; exact Hnd).
  assert (Hp' : map item xs' ≡ₚ map item xs) by (apply Permutation_map, Hp).
  assert (Hk' : List.NoDup (map Key (map item xs'))).
  { apply (Permutation.Permutation_NoDup (l := map Key (map item xs))); [|exact Hk].
    apply Permutation_map. symmetry. exact Hp'. }
  pose proof (fun k => table_get_reordered k _ _ Hk Hp') as Hg.
  rewrite !DiffItems_filters, (build_table_NoDup _ Hk), (build_table_NoDup _ Hk').
  assert (Ha : forall d, absent (map (fun o => (Key o, o)) (map item xs')) d =
                         absent (map (fun o => (Key o, o)) (map item xs)) d).
  { intros d. unfold absent. rewrite Hg. reflexivity. }
  assert (Hc : forall d, changed (map (fun o => (Key o, o)) (map item xs')) d =
                         changed (map (fun o => (Key o, o)) (map item xs)) d).
  { intros d. unfold changed. rewrite Hg. reflexivity. }
  rewrite (filter_ext _ _ Ha), (filter_ext _ _ Hc).
  rewrite (filter_ext
             (fun d => negb (absent (map (fun o => (Key o, o)) (map item xs')) d))
             (fun d => negb (absent (map (fun o => (Key o, o)) (map item xs)) d)))
    by (intros d; rewrite Ha; reflexivity).
  rewrite !filter_keyed, !filter_map_swap.
  eexists _, _, _, _. split; [reflexivity|]. split; [reflexivity|]. split.
  - apply filter_reordered, Hp.
  - intros ->. reflexivity.
Qed.
End DiffReorder.

Section EngineMirror.
Context {W : Type}.
Variable respond : forall c : call, W -> response c * W.
Variable EqualPathNames : string -> string -> bool.
Variable OptionsEqual : gmap string value -> gmap string value -> bool.

Local Abbreviation asItems := (secretsengine.asItems EqualPathNames OptionsEqual).

Lemma se_dry_run_emits instance cs ds us :
  emits (secretsengine.dry_run (W:=W) (asItems cs) (asItems ds) (asItems us))
    (dry.engine_lines (instance, (cs, ds, us))).
Proof.
  unfold dry.engine_lines.
  rewrite <- (flat_map_single dry.engine_enabled), <- (flat_map_single dry.engine_updated),
          <- flat_map_guard.
  unfold secretsengine.dry_run, secretsengine.asItems.
  repeat apply emits_seq; apply emits_forM_map; intros x w; cbn.
  - split; reflexivity.
  - split; reflexivity.
  - unfold secretsengine.Key.
    destruct (secretsengine.isDefaultMount (secretsengine.Path x)); split; reflexivity.
Qed.

Lemma se_live_run_emits instance cs ds us :
  emits (secretsengine.live_run respond instance (asItems cs) (asItems ds) (asItems us))
    (map (fun c => Called c None) (dry.engine_calls (instance, (cs, ds, us)))).
Proof.
  unfold dry.engine_calls.
  rewrite <- (flat_map_single (secretsengine.enable_call instance)),
          <- (flat_map_single (secretsengine.update_call instance)),
          <- flat_map_guard.
  rewrite !map_app, !flat_map_concat_map, !concat_map, !map_map, <- !flat_map_concat_map.
  unfold secretsengine.live_run, secretsengine.asItems.
  repeat apply emits_seq; apply emits_forM_map; intros x w; cbn.
  - split; reflexivity.
  - split; reflexivity.
  - destruct (secretsengine.isDefaultMount (secretsengine.Path x)); split; reflexivity.
Qed.
End EngineMirror.

(** X12. A dry pass of the secrets-engine package over an instance reports
    what a live pass over it does, although the two passes may have ranged
    over the enabled engines in different orders.  The existing engines of
    the instance have distinct paths, as the keys of the map they come from,
    and the live pass has them in any other order.  Then, with the creates,
    deletes and updates of the diff of the dry pass, the dry pass logs one
    line for each create, each update and each delete that is not a default
    mount, and the live pass makes one call for each of the same creates, in
    the same order, the same updates, in the same order, and the same
    deletes, in an order of its own that is the order of the dry pass when
    the two passes have the engines in the same order.  [vault.DiffItems] is
    the one modelled from section 4.2 of the specification. *)
Theorem secretsengine_dry_run_mirrors_live {W : Type}
    (respond : forall c : call, W -> response c * W)
    (EqualPathNames : string -> string -> bool)
    (OptionsEqual : gmap string value -> gmap string value -> bool)
    (desired existing existing' : gmap string (list secretsengine.entry))
    (instance : string) (w w' : W) :
  List.NoDup (map secretsengine.Path (default [] (existing !! instance))) ->
  default [] (existing' !! instance) ≡ₚ default [] (existing !! instance) ->
  exists cs ds ds' us,
    vault.DiffItems
      (secretsengine.asItems EqualPathNames OptionsEqual
         (default [] (desired !! instance)))
      (secretsengine.asItems EqualPathNames OptionsEqual
         (default [] (existing !! instance))) =
    (secretsengine.asItems EqualPathNames OptionsEqual cs,
     secretsengine.asItems EqualPathNames OptionsEqual ds,
     secretsengine.asItems EqualPathNames OptionsEqual us) /\
    ds' ≡ₚ ds /\
    (default [] (existing' !! instance) = default [] (existing !! instance) ->
     ds' = ds) /\
    trace (secretsengine.reconcile respond EqualPathNames OptionsEqual
             true desired existing instance w) =
    dry.engine_lines (instance, (cs, ds, us)) /\
    trace (secretsengine.reconcile respond EqualPathNames OptionsEqual
             false desired existing' instance w') =
    map (fun c => Called c None) (dry.engine_calls (instance, (cs, ds', us))).
Proof.
  intros Hnd Hp.
  destruct (DiffItems_reordered (secretsengine.item EqualPathNames OptionsEqual)
              (default [] (desired !! instance)) _ _ Hnd Hp)
    as (cs & ds & ds' & us & E & E' & Hds & Hsame).
  exists cs, ds, ds', us.
  split; [exact E|]. split; [exact Hds|]. split; [exact Hsame|].
  unfold secretsengine.reconcile, secretsengine.asItems in *. rewrite E, E'.
  split.
  - apply (se_dry_run_emits EqualPathNames OptionsEqual instance cs ds us).
  - apply (se_live_run_emits respond EqualPathNames OptionsEqual instance cs ds' us).
Qed.

Section PolicyMirror.
Context {W : Type}.
Variable respond : forall c : call, W -> response c * W.

Lemma po_dry_run_emits instance cs ds :
  emits (policy.dry_run (W:=W) (policy.asItems cs) (policy.asItems ds))
    (dry.policy_lines (instance, (cs, ds))).
Proof.
  unfold dry.policy_lines.
  rewrite <- (flat_map_single dry.policy_written), <- flat_map_guard.
  unfold policy.dry_run, policy.asItems.
  apply emits_seq; apply emits_forM_map; intros x w; cbn.
  - split; reflexivity.
  - unfold policy.Key.
    destruct (policy.isDefaultPolicy (policy.Name x)); split; reflexivity.
Qed.

Lemma po_live_run_emits instance cs ds :
  emits (policy.live_run respond instance (policy.asItems cs) (policy.asItems ds))
    (map (fun c => Called c None) (dry.policy_calls (instance, (cs, ds)))).
Proof.
  unfold dry.policy_calls.
  rewrite <- (flat_map_single (policy.put_call instance)), <- flat_map_guard.
  rewrite !map_app, !flat_map_concat_map, !concat_map, !map_map, <- !flat_map_concat_map.
  unfold policy.live_run, policy.asItems.
  apply emits_seq; apply emits_forM_map; intros x w; cbn.
  - split; reflexivity.
  - destruct (policy.isDefaultPolicy (policy.Name x)); split; reflexivity.
Qed.
End PolicyMirror.

(** X13. A dry pass of the policy package over an instance reports what a
    live pass over it does, although the units of the fan-out may have
    appended the existing policies in different orders in the two runs.  The
    existing policies of the instance have distinct names, and the live pass
    has them in any other order.  Then, with the creates and deletes of the
    diff of the dry pass, the dry pass logs one line for each create and each
    delete that is neither [root] nor [default], and the live pass makes one
    call for each of the same creates, in the same order, and the same
    deletes, in an order of its own that is the order of the dry pass when
    the two passes have the policies in the same order.  [vault.DiffItems] is
    the one modelled from section 4.2 of the specification. *)
Theorem policy_dry_run_mirrors_live {W : Type}
    (respond : forall c : call, W -> response c * W)
    (desired existing existing' : gmap string (list policy.entry))
    (instance : string) (w w' : W) :
  List.NoDup (map policy.Name (default [] (existing !! instance))) ->
  default [] (existing' !! instance) ≡ₚ default [] (existing !! instance) ->
  exists cs ds ds' us,
    vault.DiffItems
      (policy.asItems (default [] (desired !! instance)))
      (policy.asItems (default [] (existing !! instance))) =
    (policy.asItems cs, policy.asItems ds, policy.asItems us) /\
    ds' ≡ₚ ds /\
    (default [] (existing' !! instance) = default [] (existing !! instance) ->
     ds' = ds) /\
    trace (policy.reconcile respond true desired existing instance w) =
    dry.policy_lines (instance, (cs, ds)) /\
    trace (policy.reconcile respond false desired existing' instance w') =
    map (fun c => Called c None) (dry.policy_calls (instance, (cs, ds'))).
Proof.
  intros Hnd Hp.
  destruct (DiffItems_reordered policy.item
              (default [] (desired !! instance)) _ _ Hnd Hp)
    as (cs & ds & ds' & us & E & E' & Hds & Hsame).
  exists cs, ds, ds', us.
  split; [exact E|]. split; [exact Hds|]. split; [exact Hsame|].
  unfold policy.reconcile, policy.asItems in *. rewrite E, E'.
  split.
  - apply (po_dry_run_emits instance cs ds).
  - apply (po_live_run_emits respond instance cs ds').
Qed.

Lemma au_dry_run_emits {W : Type}
    (EqualPathNames : string -> string -> bool)
    (OptionsEqual : gmap string value -> gmap string value -> bool)
    (instance : string) (cs ds : list audit.entry) :
  emits (audit.dry_run (W:=W) instance
           (audit.asItems EqualPathNames OptionsEqual cs)
           (audit.asItems EqualPathNames OptionsEqual ds))
    (map (dry.device_enabled instance) cs ++
     map (dry.device_disabled instance) ds).
Proof.
  rewrite <- (flat_map_single (dry.device_enabled instance)),
          <- (flat_map_single (dry.device_disabled instance)).
  unfold audit.dry_run, audit.asItems.
  apply emits_seq; apply emits_forM_map; intros x w; split; reflexivity.
Qed.

(** X14. A dry pass of the audit package over an instance reports what a
    live pass over it does, although the two passes range over the listed
    devices in orders of their own.  Both list calls return no error, the
    listed devices have distinct paths, and the live pass is given them in
    any other order.  Then, with the creates and deletes of the diff of the
    dry pass, the dry pass logs one line for each create and each delete, and
    the calls of the live pass that change the instance are one enable for
    each of the same creates, in the same order, and one disable for each of
    the same deletes, in an order of its own that is the order of the dry
    pass when the two list calls return the devices in the same order.  After
    a list call with an error a dry and a live pass have the same trace.
    [vault.DiffItems] is the one modelled from section 4.2 of the
    specification. *)
Theorem audit_dry_run_mirrors_live {W : Type}
    (respond : forall c : call, W -> response c * W)
    (EqualPathNames : string -> string -> bool)
    (OptionsEqual : gmap string value -> gmap string value -> bool)
    (desired : gmap string (list audit.entry)) (instance : string) (w w' : W) :
  (snd (fst (respond (ListAuditDevices instance) w)) = None ->
   snd (fst (respond (ListAuditDevices instance) w')) = None ->
   List.NoDup
     (map audit.Path
        (audit.existing_audits
           (fst (fst (respond (ListAuditDevices instance) w))))) ->
   fst (fst (respond (ListAuditDevices instance) w')) ≡ₚ
   fst (fst (respond (ListAuditDevices instance) w)) ->
   exists cs ds ds' us,
     vault.DiffItems
       (audit.asItems EqualPathNames OptionsEqual
          (default [] (desired !! instance)))
       (audit.asItems EqualPathNames OptionsEqual
          (audit.existing_audits
             (fst (fst (respond (ListAuditDevices instance) w))))) =
     (audit.asItems EqualPathNames OptionsEqual cs,
      audit.asItems EqualPathNames OptionsEqual ds,
      audit.asItems EqualPathNames OptionsEqual us) /\
     ds' ≡ₚ ds /\
     (fst (fst (respond (ListAuditDevices instance) w')) =
      fst (fst (respond (ListAuditDevices instance) w)) -> ds' = ds) /\
     trace (audit.reconcile respond EqualPathNames OptionsEqual
              true desired instance w) =
     (Called (ListAuditDevices instance) None ::
      map (dry.device_enabled instance) cs ++
      map (dry.device_disabled instance) ds)%list /\
     mutations
       (trace (audit.reconcile respond EqualPathNames OptionsEqual
                 false desired instance w')) =
     (map (audit.enable_call instance) cs ++
      map (audit.disable_call instance) ds')%list) /\
  (forall err,
     snd (fst (respond (ListAuditDevices instance) w)) = Some err ->
     trace (audit.reconcile respond EqualPathNames OptionsEqual
              true desired instance w) =
     trace (audit.reconcile respond EqualPathNames OptionsEqual
              false desired instance w)).
Proof.
  split.
  - intros Hok Hok' Hnd Hp.
    destruct (DiffItems_reordered (audit.item EqualPathNames OptionsEqual)
                (default [] (desired !! instance))
                (audit.existing_audits
                   (fst (fst (respond (ListAuditDevices instance) w))))
                (audit.existing_audits
                   (fst (fst (respond (ListAuditDevices instance) w'))))
                Hnd (Permutation_map _ Hp))
      as (cs & ds & ds' & us & E & E' & Hds & Hsame).
    exists cs, ds, ds', us.
    split; [exact E|]. split; [exact Hds|].
    split; [intros Heq; apply Hsame; rewrite Heq; reflexivity|].
    unfold audit.reconcile. rewrite !trace_bind.
    cbn [invoke out world trace returned_error]. rewrite !Hok, !Hok'.
    unfold audit.asItems in *. rewrite E, E'. cbn [app]. split.
    + f_equal.
      apply (au_dry_run_emits EqualPathNames OptionsEqual instance cs ds).
    + cbn [mutations]. 
      apply (au_live_run_performs respond EqualPathNames OptionsEqual instance cs ds').
  - intros err Herr.
    rewrite (proj2 (au_reconcile_fetch_failure respond EqualPathNames OptionsEqual
                      true desired instance w err Herr)).
    rewrite (proj2 (au_reconcile_fetch_failure respond EqualPathNames OptionsEqual
                      false desired instance w err Herr)).
    reflexivity.
Qed.

Section MetricsFacts.
Variable float64 : Type.
Variable float64_of_int : Z -> float64.
Variable Seconds : Z -> float64.
Variable zero : float64.
Variable plus_one : float64 -> float64.

Local Abbreviation RecordMetrics :=
  (utils.RecordMetrics float64 float64_of_int Seconds zero plus_one).
Local Abbreviation record_all :=
  (utils.record_all float64 float64_of_int Seconds zero plus_one).

Lemma RecordMetrics_counter instance status duration m l :
  utils.reconcileSuccessCounter float64 (RecordMetrics instance status duration m) !! l =
  if Z.eqb status 0 && bool_decide (l = (instance, utils.INTEGRATION))
  then Some (plus_one (default zero (utils.reconcileSuccessCounter float64 m !! l)))
  else utils.reconcileSuccessCounter float64 m !! l.
Proof.
  unfold utils.RecordMetrics. destruct (Z.eqb status 0); simpl; [|reflexivity].
  case_bool_decide as E.
  - subst l. rewrite lookup_insert_eq. reflexivity.
  - rewrite lookup_insert_ne by congruence. reflexivity.
Qed.

(** X15. The success counter of an instance counts its successful
    recordings: after a run of [RecordMetrics] calls its value is the value
    before, incremented once for each recording of that instance with status
    0; recordings with another status or of another instance leave it as it
    was. *)
Theorem success_counter_counts_successes
    (rs : list (string * Z * Z)) (m : utils.metrics float64) (instance : string) :
  default zero
    (utils.reconcileSuccessCounter float64 (record_all rs m)
       !! (instance, utils.INTEGRATION)) =
  Nat.iter (utils.successes instance rs) plus_one
    (default zero
       (utils.reconcileSuccessCounter float64 m !! (instance, utils.INTEGRATION))) /\
  (utils.successes instance rs = 0 ->
   utils.reconcileSuccessCounter float64 (record_all rs m)
     !! (instance, utils.INTEGRATION) =
   utils.reconcileSuccessCounter float64 m !! (instance, utils.INTEGRATION)).
Proof.
  revert m. unfold utils.record_all, utils.successes.
  induction rs as [|[[a s] d] rs IH]; intros m; simpl; [tauto|].
  destruct (IH (RecordMetrics a s d m)) as [IH1 IH2].
  rewrite IH1. rewrite RecordMetrics_counter.
  destruct (String.eqb_spec a instance) as [->|Hne]; simpl.
  - rewrite bool_decide_eq_true_2 by reflexivity. rewrite andb_true_r.
    destruct (Z.eqb s 0) eqn:Es; simpl.
    + split; [|discriminate]. symmetry. apply Nat.iter_succ_r.
    + split; [reflexivity|]. intros H. rewrite (IH2 H), RecordMetrics_counter, Es.
      reflexivity.
  - rewrite bool_decide_eq_false_2 by congruence. rewrite andb_false_r.
    split; [reflexivity|]. intros H. rewrite (IH2 H), RecordMetrics_counter.
    rewrite bool_decide_eq_false_2 by congruence. rewrite andb_false_r. reflexivity.
Qed.

Lemma RecordMetrics_gauges instance status duration m l :
  utils.lastReconcileSuccessGauge float64 (RecordMetrics instance status duration m) !! l =
  (if bool_decide (l = (instance, utils.INTEGRATION))
   then Some (float64_of_int status)
   else utils.lastReconcileSuccessGauge float64 m !! l) /\
  utils.executionDurationGauge float64 (RecordMetrics instance status duration m) !! l =
  (if bool_decide (l = (instance, utils.INTEGRATION))
   then Some (Seconds duration)
   else utils.executionDurationGauge float64 m !! l).
Proof.
  unfold utils.RecordMetrics. destruct (Z.eqb status 0); simpl;
    case_bool_decide as E;
    try (subst l; rewrite !lookup_insert_eq; split; reflexivity);
    rewrite !lookup_insert_ne by congruence; split; reflexivity.
Qed.

Lemma record_all_others (rs : list (string * Z * Z)) m instance :
  (forall r, In r rs -> fst (fst r) <> instance) ->
  utils.lastReconcileSuccessGauge float64 (record_all rs m)
    !! (instance, utils.INTEGRATION) =
  utils.lastReconcileSuccessGauge float64 m !! (instance, utils.INTEGRATION) /\
  utils.executionDurationGauge float64 (record_all rs m)
    !! (instance, utils.INTEGRATION) =
  utils.executionDurationGauge float64 m !! (instance, utils.INTEGRATION).
Proof.
  revert m. unfold utils.record_all.
  induction rs as [|[[a s] d] rs IH]; intros m H; simpl; [tauto|].
  destruct (IH (RecordMetrics a s d m)) as [IH1 IH2]; [intros; apply H; right; assumption|].
  rewrite IH1, IH2.
  destruct (RecordMetrics_gauges a s d m (instance, utils.INTEGRATION)) as [G1 G2].
  rewrite G1, G2.
  assert (Hne : a <> instance) by (apply (H (a, s, d)); left; reflexivity).
  rewrite bool_decide_eq_false_2 by congruence. tauto.
Qed.

(** X16. The two gauges of an instance hold its last recording: the status
    and the duration in seconds of the most recent [RecordMetrics] of that
    instance, whatever was recorded before it and whatever was recorded for
    other instances after it. *)
Theorem gauges_hold_the_last_recording
    (before after : list (string * Z * Z)) (instance : string)
    (status duration : Z) (m : utils.metrics float64) :
  (forall r, In r after -> fst (fst r) <> instance) ->
  utils.lastReconcileSuccessGauge float64
    (record_all (before ++ (instance, status, duration) :: after) m)
    !! (instance, utils.INTEGRATION) = Some (float64_of_int status) /\
  utils.executionDurationGauge float64
    (record_all (before ++ (instance, status, duration) :: after) m)
    !! (instance, utils.INTEGRATION) = Some (Seconds duration).
Proof.
  intros H. unfold utils.record_all. rewrite fold_left_app. simpl.
  destruct (record_all_others after
              (RecordMetrics instance status duration
                 (fold_left
                    (fun m r => RecordMetrics (fst (fst r)) (snd (fst r)) (snd r) m)
                    before m)) instance H) as [G1 G2].
  unfold utils.record_all in G1, G2. rewrite G1, G2.
  match goal with
  | |- context [RecordMetrics instance status duration ?m0] =>
      destruct (RecordMetrics_gauges instance status duration m0
                  (instance, utils.INTEGRATION)) as [L1 L2]
  end.
  rewrite L1, L2, bool_decide_eq_true_2 by reflexivity. tauto.
Qed.

End MetricsFacts.


Lemma success_counter_counts_successes_witness :
  default 0%Z
    (utils.reconcileSuccessCounter Z
       (utils.record_all Z id (fun ns => (ns / 1000000000)%Z) 0%Z Z.succ
          [("x", 0%Z, 1500000000%Z); ("y", 1%Z, 20%Z); ("x", 1%Z, 7%Z);
           ("x", 0%Z, 9%Z)] no_metrics)
       !! ("x", utils.INTEGRATION)) = 2%Z /\
  utils.reconcileSuccessCounter Z
    (utils.record_all Z id (fun ns => (ns / 1000000000)%Z) 0%Z Z.succ
       [("x", 0%Z, 1500000000%Z); ("y", 1%Z, 20%Z); ("x", 1%Z, 7%Z);
        ("x", 0%Z, 9%Z)] no_metrics)
    !! ("y", utils.INTEGRATION) = None.
Proof.
  split.
  - exact (proj1 (success_counter_counts_successes Z id
                    (fun ns => (ns / 1000000000)%Z) 0%Z Z.succ
                    [("x", 0%Z, 1500000000%Z); ("y", 1%Z, 20%Z); ("x", 1%Z, 7%Z);
                     ("x", 0%Z, 9%Z)] no_metrics "x")).
  - exact (proj2 (success_counter_counts_successes Z id
                    (fun ns => (ns / 1000000000)%Z) 0%Z Z.succ
                    [("x", 0%Z, 1500000000%Z); ("y", 1%Z, 20%Z); ("x", 1%Z, 7%Z);
                     ("x", 0%Z, 9%Z)] no_metrics "y") eq_refl).
Defined.

Lemma gauges_hold_the_last_recording_witness :
  utils.lastReconcileSuccessGauge Z
    (utils.record_all Z id (fun ns => (ns / 1000000000)%Z) 0%Z Z.succ
       ([("x", 0%Z, 1500000000%Z)] ++ ("x", 1%Z, 7000000000%Z) :: [("y", 0%Z, 20%Z)])
       no_metrics)
    !! ("x", utils.INTEGRATION) = Some 1%Z /\
  utils.executionDurationGauge Z
    (utils.record_all Z id (fun ns => (ns / 1000000000)%Z) 0%Z Z.succ
       ([("x", 0%Z, 1500000000%Z)] ++ ("x", 1%Z, 7000000000%Z) :: [("y", 0%Z, 20%Z)])
       no_metrics)
    !! ("x", utils.INTEGRATION) = Some 7%Z.
Proof.
  apply (gauges_hold_the_last_recording Z id (fun ns => (ns / 1000000000)%Z) 0%Z Z.succ
           [("x", 0%Z, 1500000000%Z)] [("y", 0%Z, 20%Z)] "x" 1%Z 7000000000%Z no_metrics).
  intros r [<-|[]]. discriminate.
Defined.

Lemma secretsengine_lists_each_instance_once_witness :
  fetches (trace (example_two.secretsengine_Apply false)) =
  [ListSecretsEngines "x"; ListSecretsEngines "y"].
Proof.
  exact (secretsengine_lists_each_instance_once
           (example.respond example.devices)
           example.EqualPathNames example.OptionsEqual
           (fun _ => Decoded example_two.engines) example.InstanceAddresses
           [] false 2 tt example_two.engines eq_refl).
Defined.


Lemma decode_failure_makes_no_call_witness :
  trace (audit.Apply (example.respond example.devices)
           example.EqualPathNames example.OptionsEqual
           (fun _ => DecodeError "yaml: unmarshal errors")
           example.InstanceAddresses [] false 2 tt) =
  [Logged FatalLevel "[Vault Audit] failed to decode audit device configuration"
     [("error", "yaml: unmarshal errors")]].
Proof.
  exact (proj1 (proj2 (proj2 (decode_failure_makes_no_call
                  (example.respond example.devices)
                  example.EqualPathNames example.OptionsEqual
                  (fun _ => Decoded example.engines)
                  (fun _ => Decoded example.policies)
                  (fun _ => DecodeError "yaml: unmarshal errors")
                  example.InstanceAddresses example.visit example.schedule example.completion
                  [] false 2 tt "yaml: unmarshal errors")) eq_refl)).
Defined.

Lemma empty_document_does_nothing_witness :
  trace (secretsengine.Apply (example.respond example.devices)
           example.EqualPathNames example.OptionsEqual
           (fun _ => Decoded []) example.InstanceAddresses [] false 2 tt) = [] /\
  trace (policy.Apply (example.respond example.devices)
           (fun _ => Decoded []) example.InstanceAddresses
           example.visit example.schedule example.completion [] false 2 tt) = [].
Proof.
  pose proof (empty_document_does_nothing
                (example.respond example.devices)
                example.EqualPathNames example.OptionsEqual
                (fun _ => Decoded []) (fun _ => Decoded [])
                example.InstanceAddresses example.visit example.schedule example.completion
                [] false 2 tt) as [HE HP].
  split; [apply HE|apply HP]; reflexivity.
Defined.

Lemma audit_lists_every_instance_once_witness :
  fetches (trace (example.audit_Apply example.audits ["down"; "x"] false)) =
  [ListAuditDevices "down"; ListAuditDevices "x"].
Proof.
  exact (proj1 (audit_lists_every_instance_once
                  (example.respond example.devices)
                  example.EqualPathNames example.OptionsEqual
                  (fun _ => Decoded example.audits) ["down"; "x"]
                  [] false 2 tt example.audits eq_refl)).
Defined.

Lemma secretsengine_dry_run_mirrors_live_witness :
  exists cs ds ds' us,
    vault.DiffItems
      (secretsengine.asItems example.EqualPathNames example.OptionsEqual
         (default [] (secretsengine.group_by_instance example.engines !! "x")))
      (secretsengine.asItems example.EqualPathNames example.OptionsEqual
         (default [] (example_reordered.engines !! "x"))) =
    (secretsengine.asItems example.EqualPathNames example.OptionsEqual cs,
     secretsengine.asItems example.EqualPathNames example.OptionsEqual ds,
     secretsengine.asItems example.EqualPathNames example.OptionsEqual us) /\
    ds' ≡ₚ ds /\
    (default [] (example_reordered.engines' !! "x") =
     default [] (example_reordered.engines !! "x") -> ds' = ds) /\
    trace (secretsengine.reconcile (example.respond example.devices)
             example.EqualPathNames example.OptionsEqual
             true (secretsengine.group_by_instance example.engines)
             example_reordered.engines "x" tt) =
    dry.engine_lines ("x", (cs, ds, us)) /\
    trace (secretsengine.reconcile (example.respond example.devices)
             example.EqualPathNames example.OptionsEqual
             false (secretsengine.group_by_instance example.engines)
             example_reordered.engines' "x" tt) =
    map (fun c => Called c None) (dry.engine_calls ("x", (cs, ds', us))).
Proof.
  apply (secretsengine_dry_run_mirrors_live (example.respond example.devices)
           example.EqualPathNames example.OptionsEqual
           (secretsengine.group_by_instance example.engines)
           example_reordered.engines example_reordered.engines' "x" tt tt).
  - vm_compute.
    constructor; [simpl; intros [H|[]]; discriminate|].
    constructor; [intros []|]. constructor.
  - vm_compute. apply perm_swap.
Defined.

Lemma policy_dry_run_mirrors_live_witness :
  exists cs ds ds' us,
    vault.DiffItems
      (policy.asItems
         (default [] (policy.group_by_instance example.policies !! "x")))
      (policy.asItems (default [] (example_reordered.policies !! "x"))) =
    (policy.asItems cs, policy.asItems ds, policy.asItems us) /\
    ds' ≡ₚ ds /\
    (default [] (example_reordered.policies' !! "x") =
     default [] (example_reordered.policies !! "x") -> ds' = ds) /\
    trace (policy.reconcile (example.respond example.devices)
             true (policy.group_by_instance example.policies)
             example_reordered.policies "x" tt) =
    dry.policy_lines ("x", (cs, ds)) /\
    trace (policy.reconcile (example.respond example.devices)
             false (policy.group_by_instance example.policies)
             example_reordered.policies' "x" tt) =
    map (fun c => Called c None) (dry.policy_calls ("x", (cs, ds'))).
Proof.
  apply (policy_dry_run_mirrors_live (example.respond example.devices)
           (policy.group_by_instance example.policies)
           example_reordered.policies example_reordered.policies' "x" tt tt).
  - vm_compute.
    constructor; [simpl; intros [H|[]]; discriminate|].
    constructor; [intros []|]. constructor.
  - vm_compute. apply perm_swap.
Defined.

Lemma audit_dry_run_mirrors_live_witness :
  exists cs ds ds' us,
    vault.DiffItems
      (audit.asItems example.EqualPathNames example.OptionsEqual
         (default [] (audit.group_by_instance example.audits !! "x")))
      (audit.asItems example.EqualPathNames example.OptionsEqual
         (audit.existing_audits
            (fst (fst (example_reordered.respond (ListAuditDevices "x") false))))) =
    (audit.asItems example.EqualPathNames example.OptionsEqual cs,
     audit.asItems example.EqualPathNames example.OptionsEqual ds,
     audit.asItems example.EqualPathNames example.OptionsEqual us) /\
    ds' ≡ₚ ds /\
    (fst (fst (example_reordered.respond (ListAuditDevices "x") true)) =
     fst (fst (example_reordered.respond (ListAuditDevices "x") false)) ->
     ds' = ds) /\
    trace (audit.reconcile example_reordered.respond
             example.EqualPathNames example.OptionsEqual
             true (audit.group_by_instance example.audits) "x" false) =
    (Called (ListAuditDevices "x") None ::
     map (dry.device_enabled "x") cs ++ map (dry.device_disabled "x") ds)%list /\
    mutations
      (trace (audit.reconcile example_reordered.respond
                example.EqualPathNames example.OptionsEqual
                false (audit.group_by_instance example.audits) "x" true)) =
    (map (audit.enable_call "x") cs ++ map (audit.disable_call "x") ds')%list.
Proof.
  apply (proj1 (audit_dry_run_mirrors_live example_reordered.respond
                  example.EqualPathNames example.OptionsEqual
                  (audit.group_by_instance example.audits) "x" false true)).
  - reflexivity.
  - reflexivity.
  - vm_compute.
    constructor; [simpl; intros [H|[]]; discriminate|].
    constructor; [intros []|]. constructor.
  - vm_compute. apply perm_swap.
Defined.

Lemma marked_exactly_app t1 t2 :
  marked_exactly t1 -> marked_exactly t2 -> marked_exactly (t1 ++ t2).
Proof.
  intros H1 H2. induction H1; simpl; [exact H2|constructor; assumption..].
Qed.

Lemma marked_exactly_count t a :
  marked_exactly t ->
  length (List.filter (adds_invalid a) t) = length (List.filter (failed_on a) t).
Proof.
  induction 1 as [|c t Hc _ IH|lvl msg fields t _ IH|c err lvl msg fields b t Ht Hc _ IH].
  - reflexivity.
  - simpl. destruct c; simpl in *; try exact IH. discriminate.
  - exact IH.
  - assert (E1 : adds_invalid a (Called c (Some err)) = false)
      by (destruct c; simpl in *; congruence).
    assert (E2 : failed_on a (Called c (Some err)) = String.eqb a b).
    { simpl. rewrite Ht. destruct (String.eqb_spec a b) as [->|Hne].
      - apply bool_decide_eq_true_2. reflexivity.
      - apply bool_decide_eq_false_2. congruence. }
    change (List.filter (adds_invalid a)
              (Called c (Some err) :: Logged lvl msg fields ::
               Called (AddInvalid b) None :: t))
      with (if adds_invalid a (Called c (Some err))
            then Called c (Some err) ::
                 (if String.eqb a b
                  then Called (AddInvalid b) None :: List.filter (adds_invalid a) t
                  else List.filter (adds_invalid a) t)
            else if String.eqb a b
                 then Called (AddInvalid b) None :: List.filter (adds_invalid a) t
                 else List.filter (adds_invalid a) t).
    change (List.filter (failed_on a)
              (Called c (Some err) :: Logged lvl msg fields ::
               Called (AddInvalid b) None :: t))
      with (if failed_on a (Called c (Some err))
            then Called c (Some err) :: List.filter (failed_on a) t
            else List.filter (failed_on a) t).
    rewrite E1, E2. destruct (String.eqb a b); simpl; rewrite IH; reflexivity.
Qed.

Section AuditExact.
Context {W : Type}.
Variable respond : forall c : call, W -> response c * W.
Variable EqualPathNames : string -> string -> bool.
Variable OptionsEqual : gmap string value -> gmap string value -> bool.

Local Abbreviation item := (audit.item EqualPathNames OptionsEqual).

Lemma au_forM_exact (body : vault.Item -> M W unit) (xs : list audit.entry) w :
  (forall x w, out (body (item x) w) = Returned tt /\
               marked_exactly (trace (body (item x) w))) ->
  out (forM_ (map item xs) body w) = Returned tt /\
  marked_exactly (trace (forM_ (map item xs) body w)).
Proof.
  intros H. revert w. induction xs as [|x xs IH]; intros w; simpl.
  - split; [reflexivity|constructor].
  - destruct (H x w) as [Ho Hm]. rewrite out_bind, trace_bind, Ho.
    destruct (IH (world (body (item x) w))) as [Ho' Hm'].
    split; [exact Ho'|]. apply marked_exactly_app; assumption.
Qed.

Lemma au_live_run_exact instance cs ds w :
  marked_exactly
    (trace (audit.live_run respond instance
              (audit.asItems EqualPathNames OptionsEqual cs)
              (audit.asItems EqualPathNames OptionsEqual ds) w)).
Proof.
  unfold audit.live_run, audit.asItems. rewrite trace_bind.
  match goal with
  | |- context [forM_ (map item cs) ?b] =>
      destruct (au_forM_exact b cs w) as [O1 M1]
  end.
  { intros x w0. cbn.
    destruct (respond (audit.enable_call instance x) w0) as [[err|] w']; cbn;
      split; try reflexivity; repeat constructor. }
  rewrite O1. apply marked_exactly_app; [exact M1|].
  apply au_forM_exact. intros x w0. cbn.
  destruct (respond (audit.disable_call instance x) w0) as [[err|] w']; cbn;
    split; try reflexivity; repeat constructor.
Qed.

Lemma au_dry_run_exact instance cs ds w :
  marked_exactly (trace (audit.dry_run (W:=W) instance cs ds w)).
Proof.
  unfold audit.dry_run.
  assert (A : always (fun ev => exists lvl msg fields, ev = Logged lvl msg fields)
                (audit.dry_run (W:=W) instance cs ds)).
  { unfold audit.dry_run. always_tac; eauto. }
  specialize (A w). unfold audit.dry_run in A.
  induction A as [|ev t (lvl & msg & fields & ->) _ IH]; constructor; exact IH.
Qed.

Lemma au_reconcile_exact dryRun dm instance w :
  marked_exactly
    (trace (audit.reconcile respond EqualPathNames OptionsEqual dryRun dm instance w)).
Proof.
  unfold audit.reconcile. rewrite trace_bind.
  cbn [invoke out world trace returned_error].
  destruct (snd (fst (respond (ListAuditDevices instance) w))) as [err|] eqn:Herr.
  - cbn. repeat constructor.
  - apply (marked_exactly_app [_]); [repeat constructor|].
    destruct (DiffItems_boxed item (default [] (dm !! instance))
                (audit.existing_audits
                   (fst (fst (respond (ListAuditDevices instance) w)))))
      as (cs & ds & us & E).
    unfold audit.asItems in *. rewrite E. destruct dryRun.
    + apply au_dry_run_exact.
    + apply au_live_run_exact.
Qed.

Lemma au_Apply_exact Unmarshal InstanceAddresses bytes dryRun n w :
  marked_exactly
    (trace (audit.Apply respond EqualPathNames OptionsEqual
              Unmarshal InstanceAddresses bytes dryRun n w)).
Proof.
  unfold audit.Apply. rewrite trace_bind.
  destruct (Unmarshal bytes) as [entries|err]; cbn [ret log_Fatal out world trace].
  2:{ repeat constructor. }
  simpl. rewrite trace_bind.
  assert (L : forall xs dm w0,
             marked_exactly
               (trace (forM_ xs (audit.reconcile respond EqualPathNames OptionsEqual
                                   dryRun dm) w0))).
  { intros xs dm. induction xs as [|x xs IH]; intros w0; simpl; [constructor|].
    rewrite trace_bind.
    rewrite (returns_unit _ _ (au_reconcile_returns respond EqualPathNames
                                 OptionsEqual dryRun dm x)).
    apply marked_exactly_app; [apply au_reconcile_exact|apply IH]. }
  destruct (out _); [|apply L].
  apply marked_exactly_app; [apply L|]. cbn. repeat constructor.
Qed.
End AuditExact.

(** X17. The audit [Apply] calls [AddInvalid] only after a call that
    returned an error, and for the instance of that call: for each address
    the number of [AddInvalid] calls in a trace is the number of calls against
    it that returned an error, so an instance without a failed call is never
    marked invalid. *)
Theorem audit_marks_invalid_only_after_failure {W : Type}
    (respond : forall c : call, W -> response c * W)
    (EqualPathNames : string -> string -> bool)
    (OptionsEqual : gmap string value -> gmap string value -> bool)
    (Unmarshal : list Byte.byte -> decoded audit.entry)
    (InstanceAddresses : list string)
    (entriesBytes : list Byte.byte) (dryRun : bool) (threadPoolSize : Z)
    (w : W) (address : string) :
  marked_exactly
    (trace (audit.Apply respond EqualPathNames OptionsEqual
              Unmarshal InstanceAddresses entriesBytes dryRun threadPoolSize w)) /\
  length
    (List.filter (adds_invalid address)
       (trace (audit.Apply respond EqualPathNames OptionsEqual
                 Unmarshal InstanceAddresses entriesBytes dryRun threadPoolSize w))) =
  length
    (List.filter (failed_on address)
       (trace (audit.Apply respond EqualPathNames OptionsEqual
                 Unmarshal InstanceAddresses entriesBytes dryRun threadPoolSize w))).
Proof.
  pose proof (au_Apply_exact respond EqualPathNames OptionsEqual
                Unmarshal InstanceAddresses entriesBytes dryRun threadPoolSize w) as H.
  split; [exact H|]. apply marked_exactly_count, H.
Qed.
